(** * Particle simulation of [src/App.tsx]

    A shallow embedding of the simulation core of the canvas demo: the
    [Particle] class (constructor, [collideWithRadius], [move]), the
    creation of the particles, the per-frame loop of [animate], the hit
    test [findParticleWithCords] and the event handlers of [App] as a
    state machine.

    Rounding.  Two further embeddings of the velocity leak carry the
    rounding that [Q] leaves out: [Binary64] runs [move] on the binary64
    numbers of the kernel, and [leakRounded] is the leak statement over [Q]
    with an explicit rounding function after every operation.

    Randomness.  Every call of [Math.random] is an input of the model, a
    number that the theorems assume in [0, 1).

    Numbers.  The TypeScript type [number] is embedded as the exact
    rationals [Q]; the literals [0.005], [0.002], [0.5] denote the
    corresponding fractions; this embedding does not round (see Rounding
    below).  The only irrational operation of the source, [Math.sqrt],
    occurs in a single comparison [Math.sqrt(s) < t]; it is embedded by the
    equivalent rational test [0 < t /\ s < t * t] (see [Math.sqrt_lt]);
    [sqrt_lt_real] proves the equivalence with the square root of the real
    numbers.

    Identity.  [this === p1] compares object references.  The particles of
    the array are pairwise distinct objects (each one is built by its own
    [new Particle]), so a reference is embedded as the index of the object
    in [particlesArr]. *)

From Stdlib Require Import Reals Qreals Lra.
From Stdlib Require Import QArith Qabs Qround Qpower Lqa Lia Bool String HexString.
From Stdlib Require PrimFloat.
From stdpp Require Import base list.

Local Open Scope Q_scope.

Abbreviation number := Q (only parsing).

(** Boolean comparisons of the source, on [number]. *)
Definition Qltb (a b : number) : bool := negb (Qle_bool b a).
Notation "a <? b" := (Qltb a b) : Q_scope.
Notation "a <=? b" := (Qle_bool a b) : Q_scope.
Notation "a >? b" := (Qltb b a) (at level 70) : Q_scope.
Notation "a >=? b" := (Qle_bool b a) (at level 70) : Q_scope.

(** ** Constants (settings) *)

Definition MAX_PARTICLES : nat := 120.
Definition MAX_PARTICLE_SIZE : number := 15.
Definition MIN_PARTICLE_SIZE : number := 5.
Definition MOUSE_COLLISION_RADIUS : number := 10.
Definition PARTICLE_COLLISION_VELOCITY : number := 0.005.
Definition PARTICLE_VELOCITY_LEAK_MODIFIER : number := 0.002.

(** ** The parts of [Math] that the source uses *)

Module Math.

Definition max (a b : number) : number := if a <? b then b else a.
Definition min (a b : number) : number := if b <? a then b else a.

(** [sqrt_lt s t] is the test [Math.sqrt(s) < t] for [0 <= s]: a square
    root is never negative, so the test fails for [t <= 0], and for
    [0 < t] it is the comparison of the squares. *)
Definition sqrt_lt (s t : number) : bool := (0 <? t) && (s <? t * t).

Definition floor (a : number) : number := inject_Z (Qfloor a).

End Math.

(** ** Types *)

Module TMouseCords.
Record t : Type := mk { x : number; y : number }.
End TMouseCords.

Inductive TCanvasMode : Type := collision | edit.

(** The two properties of [HTMLCanvasElement] that the simulation reads. *)
Module Canvas.
Record t : Type := mk { width : number; height : number }.
End Canvas.

(** ** class Particle *)

Module Particle.

Record t : Type := mk {
  x : number;
  y : number;
  size : number;
  dirX : number;
  dirY : number;
  color : string
}.

(** Field assignments [this.f = v]. *)
Definition set_x (v : number) (this : t) : t :=
  mk v (y this) (size this) (dirX this) (dirY this) (color this).
Definition set_y (v : number) (this : t) : t :=
  mk (x this) v (size this) (dirX this) (dirY this) (color this).
Definition set_dirX (v : number) (this : t) : t :=
  mk (x this) (y this) (size this) v (dirY this) (color this).
Definition set_dirY (v : number) (this : t) : t :=
  mk (x this) (y this) (size this) (dirX this) v (color this).

(** A particle passed where [{ x: number; y: number }] is expected. *)
Definition cords (p : t) : TMouseCords.t := TMouseCords.mk (x p) (y p).

(** The guard [distance < collisionRadius + this.size] of
    [collideWithRadius]. *)
Definition collides (this : t) (cords : TMouseCords.t) (collisionRadius : number) : bool :=
  let distanceX := TMouseCords.x cords - x this in
  let distanceY := TMouseCords.y cords - y this in
  Math.sqrt_lt (distanceX * distanceX + distanceY * distanceY) (collisionRadius + size this).

(** The four impulse statements under the guard, in source order. *)
Definition push (this : t) (cords : TMouseCords.t) : t :=
  let this := if x this <? TMouseCords.x cords
              then set_dirX (dirX this + - PARTICLE_COLLISION_VELOCITY) this else this in
  let this := if x this >? TMouseCords.x cords
              then set_dirX (dirX this + PARTICLE_COLLISION_VELOCITY) this else this in
  let this := if y this <? TMouseCords.y cords
              then set_dirY (dirY this + - PARTICLE_COLLISION_VELOCITY) this else this in
  let this := if y this >? TMouseCords.y cords
              then set_dirY (dirY this + PARTICLE_COLLISION_VELOCITY) this else this in
  this.

Definition collideWithRadius (this : t) (cords : TMouseCords.t) (collisionRadius : number) : t :=
  if collides this cords collisionRadius then push this cords else this.

(** The loop [for (let i = 0; i < particlesArr.length; i++)] of [move],
    started at index [i] on the remaining elements [rest]; [self] is the
    index of [this] in the array. *)
Fixpoint collideLoop (self i : nat) (rest : list t) (this : t) : t :=
  match rest with
  | [] => this
  | p1 :: rest =>
      let this := if Nat.eqb i self then this
                  else collideWithRadius this (cords p1) (size p1) in
      collideLoop self (S i) rest this
  end.

(** Lines 69-77: collision with the mouse, then with the other particles. *)
Definition collide (mousePos : TMouseCords.t) (particlesArr : list t)
    (mode : TCanvasMode) (self : nat) (this : t) : t :=
  let this := match mode with
              | collision => collideWithRadius this mousePos MOUSE_COLLISION_RADIUS
              | edit => this
              end in
  collideLoop self 0 particlesArr this.

(** Lines 80-85: the test on the X axis and its block. *)
Definition hitsX (canvas : Canvas.t) (this : t) : bool :=
  (x this + size this >=? Canvas.width canvas) || (x this - size this <=? 0).

Definition bounceX (canvas : Canvas.t) (this : t) : t :=
  if hitsX canvas this then
    let this := set_dirX (dirX this * -0.5) this in
    let this := set_dirY (dirY this * 0.5) this in
    set_x (Math.min (Math.max (size this) (x this)) (Canvas.width canvas - size this)) this
  else this.

(** Lines 86-90: the test on the Y axis and its block. *)
Definition hitsY (canvas : Canvas.t) (this : t) : bool :=
  (y this + size this >=? Canvas.height canvas) || (y this - size this <=? 0).

Definition bounceY (canvas : Canvas.t) (this : t) : t :=
  if hitsY canvas this then
    let this := set_dirY (dirY this * -0.5) this in
    let this := set_dirX (dirX this * 0.5) this in
    set_y (Math.min (Math.max (size this) (y this)) (Canvas.height canvas - size this)) this
  else this.

(** Lines 79-90: both blocks, X first. *)
Definition bounce (canvas : Canvas.t) (this : t) : t :=
  bounceY canvas (bounceX canvas this).

(** Lines 92-94: main movement. *)
Definition advance (this : t) : t :=
  let this := set_x (x this + dirX this) this in
  set_y (y this + dirY this) this.

(** Lines 96-100: velocity leak. *)
Definition leak (velocity_leak : bool) (this : t) : t :=
  if velocity_leak then
    let this := set_dirX (dirX this - dirX this * PARTICLE_VELOCITY_LEAK_MODIFIER) this in
    set_dirY (dirY this - dirY this * PARTICLE_VELOCITY_LEAK_MODIFIER) this
  else this.

(** [move].  [canvas] is [None] when [this.canvas] or [this.ctx] is
    missing (the early [return] of line 67). *)
Definition move (canvas : option Canvas.t) (mousePos : TMouseCords.t)
    (particlesArr : list t) (mode : TCanvasMode) (velocity_leak : bool)
    (self : nat) (this : t) : t :=
  match canvas with
  | None => this
  | Some canvas =>
      leak velocity_leak
        (advance (bounce canvas (collide mousePos particlesArr mode self this)))
  end.

(** The constructor.  The field initialisers set every number to 0; with a
    canvas and a context the position and the size are drawn with
    [Math.random], whose three results, in call order, are [r1], [r2] and
    [r3]. *)
Definition constructor (color : string) (canvas : option Canvas.t)
    (r1 r2 r3 : number) : t :=
  match canvas with
  | None => mk 0 0 0 0 0 color
  | Some canvas =>
      mk (r1 * Canvas.width canvas)
         (r2 * Canvas.height canvas)
         (Math.floor (r3 * (MAX_PARTICLE_SIZE - MIN_PARTICLE_SIZE + 1) + MIN_PARTICLE_SIZE))
         0 0 color
  end.

End Particle.

(** ** The component [App] *)

(** [findParticleWithCords]: [Array.prototype.find] returns the first
    element that satisfies the predicate, [undefined] ([None]) otherwise. *)
Definition inBox (x y : number) (p : Particle.t) : bool :=
  (Particle.x p - Particle.size p <=? x) && (Particle.x p + Particle.size p >=? x)
  && (Particle.y p - Particle.size p <=? y) && (Particle.y p + Particle.size p >=? y).

Definition findParticleWithCords (particles : list Particle.t) (x y : number)
    : option Particle.t :=
  List.find (inBox x y) particles.

(** The [forEach] of [animate]: every particle moves in turn, in place, and
    sees the array as the earlier moves of the same frame left it.
    [boundingMouse] is the pointer in canvas coordinates.  The drawing calls
    ([clearRect], [draw], [drawMouseBorder]) read the state and write
    nothing back; they are left out. *)
Definition moveAt (canvas : option Canvas.t) (boundingMouse : TMouseCords.t)
    (mode : TCanvasMode) (velocity_leak : bool)
    (particles : list Particle.t) (i : nat) : list Particle.t :=
  match particles !! i with
  | Some particle =>
      <[ i := Particle.move canvas boundingMouse particles mode velocity_leak i particle ]>
        particles
  | None => particles
  end.

Definition animate (canvas : option Canvas.t) (boundingMouse : TMouseCords.t)
    (mode : TCanvasMode) (velocity_leak : bool)
    (particles : list Particle.t) : list Particle.t :=
  fold_left (moveAt canvas boundingMouse mode velocity_leak)
    (seq 0 (length particles)) particles.

(** ** The Euclidean distance

    [Math.sqrt(distanceX * distanceX + distanceY * distanceY)] of
    [collideWithRadius], as a real number. *)
Definition distance (this : Particle.t) (cords : TMouseCords.t) : R :=
  let distanceX := TMouseCords.x cords - Particle.x this in
  let distanceY := TMouseCords.y cords - Particle.y this in
  sqrt (Q2R (distanceX * distanceX + distanceY * distanceY)).

(** ** Ticks without any trigger

    The tests of one call of [move], collected: whether the pointer branch
    pushes, whether some other particle of the array pushes, whether a wall
    is hit. *)

Definition pointerHits (mousePos : TMouseCords.t) (mode : TCanvasMode)
    (this : Particle.t) : bool :=
  match mode with
  | collision => Particle.collides this mousePos MOUSE_COLLISION_RADIUS
  | edit => false
  end.

Fixpoint othersHit (self i : nat) (rest : list Particle.t) (this : Particle.t) : bool :=
  match rest with
  | [] => false
  | p1 :: rest =>
      (negb (Nat.eqb i self) && Particle.collides this (Particle.cords p1) (Particle.size p1))
      || othersHit self (S i) rest this
  end.

Definition quiet (canvas : Canvas.t) (mousePos : TMouseCords.t)
    (particlesArr : list Particle.t) (mode : TCanvasMode) (self : nat)
    (this : Particle.t) : bool :=
  negb (pointerHits mousePos mode this)
  && negb (othersHit self 0 particlesArr this)
  && negb (Particle.hitsX canvas this)
  && negb (Particle.hitsY canvas this).

(** [leakRun n p q]: [q] is reached from [p] by [n] consecutive calls of
    [move] with the velocity leak on, each in a tick of its own (canvas,
    pointer, array and mode may differ from tick to tick) in which nothing
    triggers. *)
Inductive leakRun : nat -> Particle.t -> Particle.t -> Prop :=
| leakRun_done (p : Particle.t) : leakRun 0 p p
| leakRun_tick (n : nat) (p q : Particle.t)
    (canvas : Canvas.t) (mousePos : TMouseCords.t)
    (particlesArr : list Particle.t) (mode : TCanvasMode) (self : nat) :
    quiet canvas mousePos particlesArr mode self p = true ->
    leakRun n (Particle.move (Some canvas) mousePos particlesArr mode true self p) q ->
    leakRun (S n) p q.

(** The factor that [n] leaks leave of a velocity component: one leak is
    [v -= v * PARTICLE_VELOCITY_LEAK_MODIFIER]. *)
Definition leakFactor (n : nat) : Q :=
  (1 - PARTICLE_VELOCITY_LEAK_MODIFIER) ^ Z.of_nat n.

(** The fields that no collision code writes. *)
Definition sameBody (p q : Particle.t) : Prop :=
  Particle.x q = Particle.x p /\ Particle.y q = Particle.y p
  /\ Particle.size q = Particle.size p /\ Particle.color q = Particle.color p.

(** ** Creation of the particles

    [Number.prototype.toString(16)] on a natural number: lower-case digits,
    no prefix, ["0"] for zero. *)
Definition toString16 (n : N) : string :=
  match n with
  | N0 => "0"
  | Npos p => HexString.Raw.of_pos p ""
  end.

(** [randomHexColor], on the result [r] of its call of [Math.random]. *)
Definition randomHexColor (r : number) : string :=
  String.append "#" (toString16 (Z.to_N (Qfloor (r * 16777215)))).

(** The effect "create particles".  [random k] is the result of the [k]-th
    call of [Math.random]; every particle takes four of them, in the order
    colour, x, y, size (the colour is an argument of [new Particle] and is
    evaluated first).  [canvas] is [None] when the canvas or its 2d context
    is missing; [current] is [particlesRef.current]. *)
Definition newParticle (canvas : Canvas.t) (random : nat -> number) (k : nat)
    : Particle.t :=
  Particle.constructor (randomHexColor (random (4 * k)%nat)) (Some canvas)
    (random (4 * k + 1)%nat) (random (4 * k + 2)%nat) (random (4 * k + 3)%nat).

Definition createParticles (canvas : option Canvas.t) (random : nat -> number)
    (current : list Particle.t) : list Particle.t :=
  match canvas with
  | None => current
  | Some canvas =>
      if (MAX_PARTICLES <? length current)%nat then current
      else List.map (newParticle canvas random) (seq 0 MAX_PARTICLES)
  end.

(** ** Frames

    The first [k] iterations of the [forEach] of [animate]. *)
Definition animateUpTo (k : nat) (canvas : option Canvas.t)
    (boundingMouse : TMouseCords.t) (mode : TCanvasMode) (velocity_leak : bool)
    (particles : list Particle.t) : list Particle.t :=
  fold_left (moveAt canvas boundingMouse mode velocity_leak) (seq 0 k) particles.

(** [coastRun n p q]: as [leakRun], with the velocity leak off. *)
Inductive coastRun : nat -> Particle.t -> Particle.t -> Prop :=
| coastRun_done (p : Particle.t) : coastRun 0 p p
| coastRun_tick (n : nat) (p q : Particle.t)
    (canvas : Canvas.t) (mousePos : TMouseCords.t)
    (particlesArr : list Particle.t) (mode : TCanvasMode) (self : nat) :
    quiet canvas mousePos particlesArr mode self p = true ->
    coastRun n (Particle.move (Some canvas) mousePos particlesArr mode false self p) q ->
    coastRun (S n) p q.

(** ** Picking in edit mode

    [convertCordsToCanvasCords]: [rect] is
    [canvas.getBoundingClientRect()], [None] without a canvas. *)
Module DOMRect.
Record t : Type := mk { left : number; top : number }.
End DOMRect.

Definition convertCordsToCanvasCords (rect : option DOMRect.t)
    (x y : number) : TMouseCords.t :=
  match rect with
  | None => TMouseCords.mk 0 0
  | Some rect => TMouseCords.mk (x - DOMRect.left rect) (y - DOMRect.top rect)
  end.

(** The reference that [find] returns, as the index of the particle. *)
Definition findIndexWithCords (particles : list Particle.t) (x y : number)
    : option nat :=
  fst <$> list_find (fun p => inBox x y p = true) particles.

(** ** The state of [App] and its event handlers

    The refs and the React state of the component: [canvasRef.current]
    (its size), [modeRef], [particlesRef], [mousePosRef] (client
    coordinates), [velocityLeakRef], and [activeParticle], a reference to a
    particle of the array or [null]. *)
Record AppState : Type := mkAppState {
  canvasRef : Canvas.t;
  modeRef : TCanvasMode;
  particlesRef : list Particle.t;
  mousePosRef : TMouseCords.t;
  velocityLeakRef : bool;
  activeParticle : option nat
}.

Definition set_particles (ps : list Particle.t) (st : AppState) : AppState :=
  mkAppState (canvasRef st) (modeRef st) ps (mousePosRef st)
    (velocityLeakRef st) (activeParticle st).

(** [updateCanvasSize]. *)
Definition updateCanvasSize (clientWidth clientHeight : number) (st : AppState)
    : AppState :=
  mkAppState (Canvas.mk clientWidth clientHeight) (modeRef st) (particlesRef st)
    (mousePosRef st) (velocityLeakRef st) (activeParticle st).

(** [handleMouseMove]. *)
Definition handleMouseMove (clientX clientY : number) (st : AppState) : AppState :=
  mkAppState (canvasRef st) (modeRef st) (particlesRef st)
    (TMouseCords.mk clientX clientY) (velocityLeakRef st) (activeParticle st).

(** [handleMouseClickOverParticle]. *)
Definition handleMouseClickOverParticle (rect : DOMRect.t)
    (clientX clientY : number) (st : AppState) : AppState :=
  match modeRef st with
  | collision => st
  | edit =>
      let boundingMouse := convertCordsToCanvasCords (Some rect) clientX clientY in
      match findIndexWithCords (particlesRef st)
              (TMouseCords.x boundingMouse) (TMouseCords.y boundingMouse) with
      | None => st
      | Some particle =>
          mkAppState (canvasRef st) (modeRef st) (particlesRef st)
            (mousePosRef st) (velocityLeakRef st) (Some particle)
      end
  end.

(** The two mode buttons and the leak checkbox. *)
Definition setMode (mode : TCanvasMode) (st : AppState) : AppState :=
  mkAppState (canvasRef st) mode (particlesRef st) (mousePosRef st)
    (velocityLeakRef st) (activeParticle st).

Definition toggleVelocityLeak (st : AppState) : AppState :=
  mkAppState (canvasRef st) (modeRef st) (particlesRef st) (mousePosRef st)
    (negb (velocityLeakRef st)) (activeParticle st).

(** The inputs of the settings panel: an assignment to a field of the
    particle that [activeParticle] refers to (the panel is rendered only
    when there is one).  [v] is the value after [Number(...)]. *)
Definition editActive (f : Particle.t -> Particle.t) (st : AppState) : AppState :=
  match activeParticle st with
  | None => st
  | Some i =>
      match particlesRef st !! i with
      | None => st
      | Some p => set_particles (<[ i := f p ]> (particlesRef st)) st
      end
  end.

Definition set_size (v : number) (p : Particle.t) : Particle.t :=
  Particle.mk (Particle.x p) (Particle.y p) v (Particle.dirX p) (Particle.dirY p)
    (Particle.color p).

Definition set_color (v : string) (p : Particle.t) : Particle.t :=
  Particle.mk (Particle.x p) (Particle.y p) (Particle.size p) (Particle.dirX p)
    (Particle.dirY p) v.

(** One call of [animate] on the state. *)
Definition animateState (rect : DOMRect.t) (st : AppState) : AppState :=
  let boundingMouse :=
    convertCordsToCanvasCords (Some rect)
      (TMouseCords.x (mousePosRef st)) (TMouseCords.y (mousePosRef st)) in
  set_particles
    (animate (Some (canvasRef st)) boundingMouse (modeRef st) (velocityLeakRef st)
       (particlesRef st))
    st.

(** What can happen to the component, and the handler that runs. *)
Inductive Event : Type :=
| Frame (rect : DOMRect.t)
| Resize (clientWidth clientHeight : number)
| MouseMove (clientX clientY : number)
| Click (rect : DOMRect.t) (clientX clientY : number)
| SetMode (mode : TCanvasMode)
| ToggleLeak
| EditColor (v : string)
| EditSize (v : number)
| EditX (v : number)
| EditY (v : number).

Definition handle (st : AppState) (e : Event) : AppState :=
  match e with
  | Frame rect => animateState rect st
  | Resize w h => updateCanvasSize w h st
  | MouseMove x y => handleMouseMove x y st
  | Click rect x y => handleMouseClickOverParticle rect x y st
  | SetMode mode => setMode mode st
  | ToggleLeak => toggleVelocityLeak st
  | EditColor v => editActive (set_color v) st
  | EditSize v => editActive (set_size v) st
  | EditX v => editActive (Particle.set_x v) st
  | EditY v => editActive (Particle.set_y v) st
  end.

Definition run (events : list Event) (st : AppState) : AppState :=
  fold_left handle events st.

(** The events that leave the radius of every particle alone. *)
Definition keepsSize (e : Event) : bool :=
  match e with
  | EditSize _ => false
  | _ => true
  end.

(** ** The step on binary64 numbers

    The class [Particle] once more, with [number] as the binary64 floating
    point numbers that the program runs on: every operation rounds to
    nearest, ties to even, and a comparison with NaN is false, as in
    JavaScript.  The literals are written in hexadecimal, as the doubles
    that the decimal literals of the source denote. *)
Module Binary64.

Import PrimFloat.
Local Open Scope float_scope.

Definition PARTICLE_COLLISION_VELOCITY : float := 0x1.47ae147ae147bp-8.
Definition PARTICLE_VELOCITY_LEAK_MODIFIER : float := 0x1.0624dd2f1a9fcp-9.
Definition MOUSE_COLLISION_RADIUS : float := 10.

(** [Math.max] and [Math.min]: NaN if an argument is NaN, and [-0] below
    [+0]. *)
Definition negative_zero (a : float) : bool :=
  match classify a with
  | FloatClass.NZero => true
  | _ => false
  end.

Definition Math_max (a b : float) : float :=
  if is_nan a || is_nan b then nan
  else if a <? b then b
  else if b <? a then a
  else if negative_zero a then b else a.

Definition Math_min (a b : float) : float :=
  if is_nan a || is_nan b then nan
  else if b <? a then b
  else if a <? b then a
  else if negative_zero a then a else b.

Record t : Type := mk {
  x : float;
  y : float;
  size : float;
  dirX : float;
  dirY : float;
  color : string
}.

Definition set_x (v : float) (this : t) : t :=
  mk v (y this) (size this) (dirX this) (dirY this) (color this).
Definition set_y (v : float) (this : t) : t :=
  mk (x this) v (size this) (dirX this) (dirY this) (color this).
Definition set_dirX (v : float) (this : t) : t :=
  mk (x this) (y this) (size this) v (dirY this) (color this).
Definition set_dirY (v : float) (this : t) : t :=
  mk (x this) (y this) (size this) (dirX this) v (color this).

Definition collides (this : t) (cx cy : float) (collisionRadius : float) : bool :=
  let distanceX := cx - x this in
  let distanceY := cy - y this in
  let distance := sqrt (distanceX * distanceX + distanceY * distanceY) in
  distance <? collisionRadius + size this.

Definition collideWithRadius (this : t) (cx cy : float) (collisionRadius : float) : t :=
  if collides this cx cy collisionRadius then
    let this := if x this <? cx
                then set_dirX (dirX this + - PARTICLE_COLLISION_VELOCITY) this else this in
    let this := if cx <? x this
                then set_dirX (dirX this + PARTICLE_COLLISION_VELOCITY) this else this in
    let this := if y this <? cy
                then set_dirY (dirY this + - PARTICLE_COLLISION_VELOCITY) this else this in
    let this := if cy <? y this
                then set_dirY (dirY this + PARTICLE_COLLISION_VELOCITY) this else this in
    this
  else this.

Fixpoint collideLoop (self i : nat) (rest : list t) (this : t) : t :=
  match rest with
  | [] => this
  | p1 :: rest =>
      let this := if Nat.eqb i self then this
                  else collideWithRadius this (x p1) (y p1) (size p1) in
      collideLoop self (S i) rest this
  end.

Definition hitsX (width : float) (this : t) : bool :=
  (width <=? x this + size this) || (x this - size this <=? 0).

Definition hitsY (height : float) (this : t) : bool :=
  (height <=? y this + size this) || (y this - size this <=? 0).

(** [move], with the canvas as its width and height, the pointer as its
    two coordinates and [edit_mode] for [mode !== 'collision']. *)
Definition move (width height : float) (mouseX mouseY : float)
    (particlesArr : list t) (edit_mode : bool) (velocity_leak : bool)
    (self : nat) (this : t) : t :=
  let this := if edit_mode then this
              else collideWithRadius this mouseX mouseY MOUSE_COLLISION_RADIUS in
  let this := collideLoop self 0 particlesArr this in
  let this :=
    if hitsX width this then
      let this := set_dirX (dirX this * -0.5) this in
      let this := set_dirY (dirY this * 0.5) this in
      set_x (Math_min (Math_max (size this) (x this)) (width - size this)) this
    else this in
  let this :=
    if hitsY height this then
      let this := set_dirY (dirY this * -0.5) this in
      let this := set_dirX (dirX this * 0.5) this in
      set_y (Math_min (Math_max (size this) (y this)) (height - size this)) this
    else this in
  let this := set_x (x this + dirX this) this in
  let this := set_y (y this + dirY this) this in
  if velocity_leak then
    let this := set_dirX (dirX this - dirX this * PARTICLE_VELOCITY_LEAK_MODIFIER) this in
    set_dirY (dirY this - dirY this * PARTICLE_VELOCITY_LEAK_MODIFIER) this
  else this.

(** No test of the step holds: pointer, other particles, walls. *)
Definition quiet (width height : float) (mouseX mouseY : float)
    (particlesArr : list t) (edit_mode : bool) (self : nat) (this : t) : bool :=
  (edit_mode || negb (collides this mouseX mouseY MOUSE_COLLISION_RADIUS))
  && forallb (fun ip => Nat.eqb (fst ip) self
                        || negb (collides this (x (snd ip)) (y (snd ip)) (size (snd ip))))
       (combine (seq 0 (length particlesArr)) particlesArr)
  && negb (hitsX width this) && negb (hitsY height this).

End Binary64.

(** ** The leak with explicit rounding

    Line 98, [this.dirX -= this.dirX * PARTICLE_VELOCITY_LEAK_MODIFIER], on
    one velocity component: the literal, the product and the difference
    are each rounded by [rnd]. *)
Definition leakRounded (rnd : Q -> Q) (v : number) : number :=
  rnd (v - rnd (v * rnd PARTICLE_VELOCITY_LEAK_MODIFIER)).


(** What the theorems assume of a rounding to a floating point format: it
    is monotone and odd, it returns numbers of the format (which it leaves
    as they are), and on magnitudes between [tmin] and [tmax] its relative
    error is at most [eps].  Rounding to nearest in binary64 is such a
    rounding with [eps = 2^-53], [tmin = 2^-1022] (the least normal number)
    and [tmax] the greatest finite number; the identity is one with
    [eps = 0] and [tmin = 0] (exact arithmetic). *)
Definition rounding (rnd : Q -> Q) (eps tmin tmax : Q) : Prop :=
  (forall a b, a <= b -> rnd a <= rnd b)
  /\ (forall a, rnd (- a) == - rnd a)
  /\ (forall a, rnd (rnd a) == rnd a)
  /\ (forall a, tmin <= Qabs a -> Qabs a <= tmax ->
                 Qabs (rnd a - a) <= eps * Qabs a)
  /\ (0 <= eps /\ eps <= (1 # 10000))
  /\ (0 <= tmin /\ tmin <= PARTICLE_VELOCITY_LEAK_MODIFIER)
  /\ PARTICLE_VELOCITY_LEAK_MODIFIER <= tmax.

(** Truncation to the multiples of [2^-30], a rounding with visible steps. *)
Definition truncate30 (a : Q) : Q :=
  if 0 <=? a then inject_Z (Qfloor (a * 1073741824)) * (1 # 1073741824)
  else - (inject_Z (Qfloor (- a * 1073741824)) * (1 # 1073741824)).

(** * Properties *)

(** ** Comparisons *)

Lemma Qltb_lt (a b : Q) : (a <? b) = true <-> a < b.
Proof.
  unfold Qltb. rewrite negb_true_iff, <- not_true_iff_false, Qle_bool_iff.
  split; [apply Qnot_le_lt | apply Qlt_not_le].
Qed.

Lemma Qltb_ge (a b : Q) : (a <? b) = false <-> b <= a.
Proof. unfold Qltb. rewrite negb_false_iff. apply Qle_bool_iff. Qed.

Lemma Qleb_gt (a b : Q) : (a <=? b) = false <-> b < a.
Proof.
  rewrite <- not_true_iff_false, Qle_bool_iff.
  split; [apply Qnot_le_lt | apply Qlt_not_le].
Qed.

Lemma Qltb_spec (a b : Q) : reflect (a < b) (a <? b).
Proof.
  destruct (a <? b) eqn:E; constructor.
  - now apply Qltb_lt.
  - apply Qltb_ge in E. lra.
Qed.


Ltac to_prop :=
  repeat match goal with
    | H : Qltb _ _ = true |- _ => apply Qltb_lt in H
    | H : Qltb _ _ = false |- _ => apply Qltb_ge in H
    | H : Qle_bool _ _ = true |- _ => apply Qle_bool_iff in H
    | H : Qle_bool _ _ = false |- _ => apply Qleb_gt in H
    end.

(** One step through a conditional of the code: case analysis on a
    condition that contains no other conditional, keeping its value. *)
Ltac step_if :=
  match goal with
  | |- context [if ?b then _ else _] =>
      lazymatch b with
      | context [if _ then _ else _] => fail
      | _ => destruct b eqn:?
      end
  end; cbn.

(** ** Sanity checks on concrete inputs *)

Example collide_left :
  Particle.collideWithRadius (Particle.mk 100 100 10 0 0 "#fff")
    (TMouseCords.mk 95 100) MOUSE_COLLISION_RADIUS
  = Particle.mk 100 100 10 (0 + 0.005) 0 "#fff".
Proof. reflexivity. Qed.

Example collide_far :
  Particle.collideWithRadius (Particle.mk 100 100 10 0 0 "#fff")
    (TMouseCords.mk 80 100) MOUSE_COLLISION_RADIUS
  = Particle.mk 100 100 10 0 0 "#fff".
Proof. reflexivity. Qed.

Example bounce_right_wall :
  Particle.bounceX (Canvas.mk 200 200) (Particle.mk 190.5 100 10 1 0 "#fff")
  = Particle.mk (200 - 10) 100 10 (1 * -0.5) (0 * 0.5) "#fff".
Proof. reflexivity. Qed.

(** ** Frame: what the collision code leaves alone *)

Section Frame.

Import Particle.

Lemma sameBody_refl p : sameBody p p.
Proof. repeat split. Qed.

Lemma sameBody_trans p q r : sameBody p q -> sameBody q r -> sameBody p r.
Proof. unfold sameBody. intuition congruence. Qed.

Lemma push_sameBody this c : sameBody this (push this c).
Proof.
  unfold push, sameBody. repeat step_if; repeat split.
Qed.

Lemma collideWithRadius_sameBody this c r :
  sameBody this (collideWithRadius this c r).
Proof.
  unfold collideWithRadius.
  destruct (collides this c r); [apply push_sameBody | apply sameBody_refl].
Qed.

Lemma collides_sameBody p q c r : sameBody p q -> collides q c r = collides p c r.
Proof. intros (Hx & Hy & Hs & _). unfold collides. now rewrite Hx, Hy, Hs. Qed.

Lemma collideLoop_sameBody self rest :
  forall i this, sameBody this (collideLoop self i rest this).
Proof.
  induction rest as [|p1 rest IH]; intros i this; cbn.
  - apply sameBody_refl.
  - eapply sameBody_trans; [|apply IH].
    destruct (Nat.eqb i self);
      [apply sameBody_refl | apply collideWithRadius_sameBody].
Qed.

Lemma collide_sameBody mousePos arr mode self this :
  sameBody this (collide mousePos arr mode self this).
Proof.
  unfold collide. eapply sameBody_trans; [|apply collideLoop_sameBody].
  destruct mode; [apply collideWithRadius_sameBody | apply sameBody_refl].
Qed.

Lemma hitsX_sameBody cv p q : sameBody p q -> hitsX cv q = hitsX cv p.
Proof. intros (Hx & _ & Hs & _). unfold hitsX. now rewrite Hx, Hs. Qed.

Lemma hitsY_sameBody cv p q : sameBody p q -> hitsY cv q = hitsY cv p.
Proof. intros (_ & Hy & Hs & _). unfold hitsY. now rewrite Hy, Hs. Qed.

(** Without a successful test the loop and the whole collision phase do
    nothing. *)
Lemma collideLoop_quiet self rest :
  forall i this, othersHit self i rest this = false ->
                 collideLoop self i rest this = this.
Proof.
  induction rest as [|p1 rest IH]; intros i this H; cbn in *; [reflexivity|].
  apply orb_false_iff in H as [H1 H2].
  destruct (Nat.eqb i self); cbn in H1.
  - now apply IH.
  - unfold collideWithRadius. rewrite H1. now apply IH.
Qed.

Lemma collide_quiet mousePos arr mode self this :
  pointerHits mousePos mode this = false ->
  othersHit self 0 arr this = false ->
  collide mousePos arr mode self this = this.
Proof.
  intros Hp Ho. unfold collide.
  destruct mode; cbn in Hp.
  - unfold collideWithRadius. rewrite Hp. now apply collideLoop_quiet.
  - now apply collideLoop_quiet.
Qed.

End Frame.

(** ** The pointer in edit mode *)

(** C2. In edit mode a step does not read the pointer: two pointer
    positions give the same particle, for [move] and for a whole frame of
    [animate]; the collision phase is the loop over the other particles and
    nothing else, so a pointer within collision range adds no velocity. *)
Theorem edit_mode_ignores_pointer
    (canvas : option Canvas.t) (m1 m2 : TMouseCords.t)
    (particlesArr : list Particle.t) (velocity_leak : bool) (self : nat)
    (this : Particle.t) :
  Particle.move canvas m1 particlesArr edit velocity_leak self this
  = Particle.move canvas m2 particlesArr edit velocity_leak self this
  /\ Particle.collide m1 particlesArr edit self this
     = Particle.collideLoop self 0 particlesArr this
  /\ pointerHits m1 edit this = false
  /\ animate canvas m1 edit velocity_leak particlesArr
     = animate canvas m2 edit velocity_leak particlesArr.
Proof.
  (* with [mode] fixed to [edit] the pointer branch reduces away: both
     sides unfold to the same term *)
  repeat split.
Qed.

(** In collision mode the same pointer does change the step. *)
Example collision_mode_reads_pointer :
  let this := Particle.mk 100 100 10 0 0 "#fff" in
  let canvas := Some (Canvas.mk 200 200) in
  Particle.move canvas (TMouseCords.mk 95 100) [this] edit false 0 this = this
  /\ Particle.dirX
       (Particle.move canvas (TMouseCords.mk 95 100) [this] collision false 0 this)
     = 0 + 0.005.
Proof. split; reflexivity. Qed.

(** ** The pointer on the centre of a particle *)

Lemma push_same_x this c :
  Particle.x this == TMouseCords.x c ->
  Particle.dirX (Particle.push this c) = Particle.dirX this.
Proof.
  intros H. unfold Particle.push.
  repeat step_if; to_prop; try reflexivity; lra.
Qed.

Lemma push_same_y this c :
  Particle.y this == TMouseCords.y c ->
  Particle.dirY (Particle.push this c) = Particle.dirY this.
Proof.
  intros H. unfold Particle.push.
  repeat step_if; to_prop; try reflexivity; lra.
Qed.

(** C4. Arena 200 x 200, one particle at (100,100) of radius 10 at rest, the
    pointer at (100,100) in collision mode: the collision test succeeds
    (distance 0 < 10 + 10), and the velocity is still (0,0) after the
    pointer collision, after the whole collision phase and after the step. *)
Theorem pointer_on_centre_no_impulse (c : string) (velocity_leak : bool) :
  let this := Particle.mk 100 100 10 0 0 c in
  let mousePos := TMouseCords.mk 100 100 in
  let after := Particle.collideWithRadius this mousePos MOUSE_COLLISION_RADIUS in
  let moved :=
    Particle.move (Some (Canvas.mk 200 200)) mousePos [this] collision
      velocity_leak 0 this in
  Particle.collides this mousePos MOUSE_COLLISION_RADIUS = true
  /\ after = this
  /\ Particle.collide mousePos [this] collision 0 this = this
  /\ Particle.dirX moved == 0 /\ Particle.dirY moved == 0
  /\ Particle.x moved == 100 /\ Particle.y moved == 100.
Proof.
  destruct velocity_leak; cbn; repeat split; reflexivity.
Qed.

(** ** Order of integration and leak *)

(** C7. The position moves by the velocity that the collision phase and the
    boundary handling left, starting from the clamped position; the leak is
    taken from the velocity afterwards, when enabled, and does not touch the
    position. *)
Theorem integration_uses_pre_leak_velocity
    (canvas : Canvas.t) (mousePos : TMouseCords.t)
    (particlesArr : list Particle.t) (mode : TCanvasMode)
    (velocity_leak : bool) (self : nat) (this : Particle.t) :
  let q := Particle.bounce canvas
             (Particle.collide mousePos particlesArr mode self this) in
  let this' := Particle.move (Some canvas) mousePos particlesArr mode
                 velocity_leak self this in
  Particle.x this' = Particle.x q + Particle.dirX q
  /\ Particle.y this' = Particle.y q + Particle.dirY q
  /\ Particle.dirX this'
     = (if velocity_leak
        then Particle.dirX q - Particle.dirX q * PARTICLE_VELOCITY_LEAK_MODIFIER
        else Particle.dirX q)
  /\ Particle.dirY this'
     = (if velocity_leak
        then Particle.dirY q - Particle.dirY q * PARTICLE_VELOCITY_LEAK_MODIFIER
        else Particle.dirY q)
  /\ this' = Particle.leak velocity_leak (Particle.advance q).
Proof.
  cbn. destruct velocity_leak; repeat split.
Qed.

(** ** The collision test and the Euclidean distance *)

(** The rational test of the model is the comparison with the real square
    root. *)
Lemma sqrt_lt_real (s t : Q) :
  0 <= s -> Math.sqrt_lt s t = true <-> (sqrt (Q2R s) < Q2R t)%R.
Proof.
  intros Hs. unfold Math.sqrt_lt.
  rewrite andb_true_iff, !Qltb_lt.
  assert (Hs' : (0 <= Q2R s)%R) by (apply Qle_Rle in Hs; now rewrite RMicromega.Q2R_0 in Hs).
  split.
  - intros [Ht Hst].
    apply Qlt_Rlt in Ht, Hst. rewrite RMicromega.Q2R_0 in Ht. rewrite Q2R_mult in Hst.
    rewrite <- (sqrt_square (Q2R t)) by Lra.lra.
    apply sqrt_lt_1_alt. split; assumption.
  - intros H.
    pose proof (sqrt_pos (Q2R s)) as Hpos.
    assert (Ht : (0 < Q2R t)%R) by Lra.lra.
    split.
    + apply Rlt_Qlt. now rewrite RMicromega.Q2R_0.
    + apply Rlt_Qlt. rewrite Q2R_mult.
      rewrite <- (sqrt_sqrt (Q2R s)) at 1 by assumption.
      Lra.nra.
Qed.

Lemma sum_of_squares_nonneg (a b : Q) : 0 <= a * a + b * b.
Proof. nra. Qed.

Lemma collides_distance this c r :
  Particle.collides this c r = true
  <-> (distance this c < Q2R (r + Particle.size this))%R.
Proof.
  unfold Particle.collides, distance. cbv zeta.
  apply sqrt_lt_real. apply sum_of_squares_nonneg.
Qed.

Lemma collides_false_distance this c r :
  Particle.collides this c r = false
  <-> (Q2R (r + Particle.size this) <= distance this c)%R.
Proof.
  rewrite <- not_true_iff_false, collides_distance. split; Lra.lra.
Qed.

(** C10. [collideWithRadius] writes the two velocity components only:
    position, radius and colour are unchanged; and when the Euclidean
    distance from the centre to the point is at least
    [collisionRadius + size], the particle is returned as it was.  The
    function is total: there is no failing case. *)
Theorem collideWithRadius_frame
    (this : Particle.t) (cords : TMouseCords.t) (collisionRadius : number) :
  let this' := Particle.collideWithRadius this cords collisionRadius in
  Particle.x this' = Particle.x this
  /\ Particle.y this' = Particle.y this
  /\ Particle.size this' = Particle.size this
  /\ Particle.color this' = Particle.color this
  /\ ((Q2R (collisionRadius + Particle.size this) <= distance this cords)%R ->
      this' = this).
Proof.
  cbv zeta.
  destruct (collideWithRadius_sameBody this cords collisionRadius)
    as (Hx & Hy & Hs & Hc).
  repeat split; try assumption.
  intros Hfar. apply collides_false_distance in Hfar.
  unfold Particle.collideWithRadius. now rewrite Hfar.
Qed.

Lemma othersHit_lookup (rest : list Particle.t) :
  forall (self k j : nat) (this p1 : Particle.t),
    rest !! j = Some p1 -> (k + j)%nat <> self ->
    Particle.collides this (Particle.cords p1) (Particle.size p1) = true ->
    othersHit self k rest this = true.
Proof.
  induction rest as [|h rest IH]; intros self k j this p1 Hj Hne Hc.
  - destruct j; discriminate.
  - cbn. apply orb_true_iff. destruct j as [|j]; cbn in Hj.
    + left. injection Hj as ->. rewrite Hc, andb_true_r.
      apply negb_true_iff, Nat.eqb_neq. lia.
    + right. apply (IH self (S k) j this p1); [assumption | lia | assumption].
Qed.

(** C9. The collision test of A against B (centre of B, threshold
    [B.size + A.size]) and the test of B against A have the same outcome;
    when the distance between the centres is below [rA + rB] both succeed,
    and in an array that holds both, the loop of A and the loop of B each
    meet a successful test.  Each test only leads to a write of the testing particle's own velocity:
    a move at index [i] leaves every other entry of the array as it was. *)
Theorem collision_trigger_symmetric (a b : Particle.t) :
  Particle.collides a (Particle.cords b) (Particle.size b)
  = Particle.collides b (Particle.cords a) (Particle.size a)
  /\ ((distance a (Particle.cords b) < Q2R (Particle.size a + Particle.size b))%R ->
      Particle.collides a (Particle.cords b) (Particle.size b) = true
      /\ Particle.collides b (Particle.cords a) (Particle.size a) = true
      /\ forall (particles : list Particle.t) i j,
           particles !! i = Some a -> particles !! j = Some b -> i <> j ->
           othersHit i 0 particles a = true /\ othersHit j 0 particles b = true)
  /\ (forall canvas mousePos mode velocity_leak (particles : list Particle.t) i j,
        i <> j ->
        moveAt canvas mousePos mode velocity_leak particles i !! j = particles !! j).
Proof.
  assert (Hsym : Particle.collides a (Particle.cords b) (Particle.size b)
                 = Particle.collides b (Particle.cords a) (Particle.size a)).
  { unfold Particle.collides, Math.sqrt_lt. cbn.
    set (xa := Particle.x a). set (ya := Particle.y a). set (ra := Particle.size a).
    set (xb := Particle.x b). set (yb := Particle.y b). set (rb := Particle.size b).
    assert (E1 : rb + ra == ra + rb) by ring.
    assert (E2 : (xb - xa) * (xb - xa) + (yb - ya) * (yb - ya)
                 == (xa - xb) * (xa - xb) + (ya - yb) * (ya - yb)) by ring.
    unfold Qltb. now rewrite E1, E2. }
  split; [exact Hsym|]. split.
  - intros Hd.
    assert (Ha : Particle.collides a (Particle.cords b) (Particle.size b) = true).
    { apply collides_distance.
      replace (Q2R (Particle.size b + Particle.size a))
        with (Q2R (Particle.size a + Particle.size b)); [assumption|].
      rewrite !Q2R_plus. Lra.lra. }
    split; [exact Ha|]. split; [rewrite <- Hsym; exact Ha|].
    intros particles i j Hi Hj Hij. split.
    + apply (othersHit_lookup particles i 0%nat j a b); [assumption | cbn; lia | exact Ha].
    + apply (othersHit_lookup particles j 0%nat i b a);
        [assumption | cbn; lia | rewrite <- Hsym; exact Ha].
  - intros canvas mousePos mode velocity_leak particles i j Hij.
    unfold moveAt. destruct (particles !! i); [|reflexivity].
    now apply list_lookup_insert_ne.
Qed.

(** ** Boundary handling *)

Lemma hitsY_bounceX cv p : Particle.hitsY cv (Particle.bounceX cv p) = Particle.hitsY cv p.
Proof. unfold Particle.bounceX. now destruct (Particle.hitsX cv p). Qed.

(** C5. In a step where both the X test and the Y test hold (a corner), the
    velocity that the position is advanced by is [vx * -0.5 * 0.5] on X and
    [vy * 0.5 * -0.5] on Y, where (vx, vy) is the velocity after the
    collision phase: minus a quarter of it on either axis. *)
Theorem corner_damps_both_axes_twice
    (canvas : Canvas.t) (mousePos : TMouseCords.t)
    (particlesArr : list Particle.t) (mode : TCanvasMode)
    (velocity_leak : bool) (self : nat) (this : Particle.t)
    (HX : (Particle.x this + Particle.size this >=? Canvas.width canvas)
          || (Particle.x this - Particle.size this <=? 0) = true)
    (HY : (Particle.y this + Particle.size this >=? Canvas.height canvas)
          || (Particle.y this - Particle.size this <=? 0) = true) :
  let v := Particle.collide mousePos particlesArr mode self this in
  let q := Particle.bounce canvas v in
  let this' := Particle.move (Some canvas) mousePos particlesArr mode
                 velocity_leak self this in
  Particle.dirX q = Particle.dirX v * -0.5 * 0.5
  /\ Particle.dirY q = Particle.dirY v * 0.5 * -0.5
  /\ Particle.dirX q == -0.25 * Particle.dirX v
  /\ Particle.dirY q == -0.25 * Particle.dirY v
  /\ Particle.x this' = Particle.x q + Particle.dirX q
  /\ Particle.y this' = Particle.y q + Particle.dirY q.
Proof.
  intros v q this'.
  pose proof (collide_sameBody mousePos particlesArr mode self this) as Hb.
  fold v in Hb.
  assert (HXv : Particle.hitsX canvas v = true)
    by (rewrite (hitsX_sameBody canvas this v Hb); exact HX).
  assert (HYv : Particle.hitsY canvas v = true)
    by (rewrite (hitsY_sameBody canvas this v Hb); exact HY).
  assert (Eq : q = Particle.bounceY canvas (Particle.bounceX canvas v)) by reflexivity.
  assert (EX : Particle.dirX q = Particle.dirX v * -0.5 * 0.5
               /\ Particle.dirY q = Particle.dirY v * 0.5 * -0.5).
  { rewrite Eq. unfold Particle.bounceY. rewrite hitsY_bounceX, HYv.
    unfold Particle.bounceX. rewrite HXv. split; reflexivity. }
  destruct EX as [EX EY].
  repeat split; try assumption.
  - rewrite EX. ring.
  - rewrite EY. ring.
  - subst this'. cbn. now destruct velocity_leak.
  - subst this'. cbn. now destruct velocity_leak.
Qed.

Lemma corner_damps_both_axes_twice_witness :
  let canvas := Canvas.mk 200 200 in
  let this := Particle.mk 195 195 10 1 1 "#fff" in
  let v := Particle.collide (TMouseCords.mk 0 0) [this] edit 0 this in
  Particle.dirX (Particle.bounce canvas v) = Particle.dirX v * -0.5 * 0.5.
Proof.
  intros canvas this v.
  apply (corner_damps_both_axes_twice canvas (TMouseCords.mk 0 0) [this] edit false
           0%nat this); reflexivity.
Defined.

(** ** Picking a particle *)

Lemma inBox_spec (x y : number) (p : Particle.t) :
  inBox x y p = true
  <-> (Particle.x p - Particle.size p <= x /\ x <= Particle.x p + Particle.size p)
      /\ (Particle.y p - Particle.size p <= y /\ y <= Particle.y p + Particle.size p).
Proof.
  unfold inBox. rewrite !andb_true_iff, !Qle_bool_iff. tauto.
Qed.

Lemma find_first {A} (f : A -> bool) (l : list A) (a : A) :
  List.find f l = Some a
  <-> exists i, l !! i = Some a /\ f a = true
                /\ forall j b, (j < i)%nat -> l !! j = Some b -> f b = false.
Proof.
  induction l as [|h l IH]; cbn.
  - split; [discriminate | intros (i & Hi & _); destruct i; discriminate].
  - destruct (f h) eqn:Eh.
    + split.
      * intros [= <-]. exists 0%nat. repeat split; [assumption | intros; lia].
      * intros (i & Hi & Ha & Hfirst). destruct i as [|i]; [exact Hi|].
        specialize (Hfirst 0%nat h ltac:(lia) eq_refl). congruence.
    + rewrite IH. split.
      * intros (i & Hi & Ha & Hfirst). exists (S i). repeat split; try assumption.
        intros [|j] b Hj Hb; cbn in Hb; [congruence|].
        apply (Hfirst j b); [lia | assumption].
      * intros (i & Hi & Ha & Hfirst). destruct i as [|i]; cbn in Hi; [congruence|].
        exists i. repeat split; try assumption.
        intros j b Hj Hb. apply (Hfirst (S j) b); [lia | assumption].
Qed.

(** C8. [findParticleWithCords] returns the first particle, in array order,
    whose bounding square [x - size, x + size] x [y - size, y + size]
    contains the point, and [None] exactly when no particle's square
    contains it. *)
Theorem findParticleWithCords_first_in_box
    (particles : list Particle.t) (x y : number) :
  (forall p, findParticleWithCords particles x y = Some p
     <-> exists i, particles !! i = Some p /\ inBox x y p = true
                   /\ forall j q, (j < i)%nat -> particles !! j = Some q ->
                                  inBox x y q = false)
  /\ (findParticleWithCords particles x y = None
      <-> forall i p, particles !! i = Some p -> inBox x y p = false)
  /\ (forall p, inBox x y p = true
      <-> (Particle.x p - Particle.size p <= x /\ x <= Particle.x p + Particle.size p)
          /\ (Particle.y p - Particle.size p <= y /\ y <= Particle.y p + Particle.size p)).
Proof.
  split; [|split].
  - intros p. apply find_first.
  - unfold findParticleWithCords. split.
    + intros Hnone i p Hp.
      apply (List.find_none _ _ Hnone). apply list_elem_of_In.
      apply list_elem_of_lookup. now exists i.
    + intros Hall. destruct (List.find (inBox x y) particles) as [p|] eqn:E; [|reflexivity].
      apply find_first in E as (i & Hi & Hp & _).
      rewrite (Hall i p Hi) in Hp. discriminate.
  - intros p. apply inBox_spec.
Qed.

(** ** Containment *)

Lemma clamp_bounds (lo v hi : Q) :
  lo <= hi -> lo <= Math.min (Math.max lo v) hi /\ Math.min (Math.max lo v) hi <= hi.
Proof.
  intros H. unfold Math.min, Math.max.
  repeat step_if; to_prop; lra.
Qed.

Lemma bounceX_contained cv p :
  2 * Particle.size p <= Canvas.width cv ->
  let q := Particle.bounceX cv p in
  Particle.size q <= Particle.x q /\ Particle.x q <= Canvas.width cv - Particle.size q.
Proof.
  intros Hw. unfold Particle.bounceX, Particle.hitsX.
  destruct (Particle.x p + Particle.size p >=? Canvas.width cv) eqn:E1;
    destruct (Particle.x p - Particle.size p <=? 0) eqn:E2; cbn;
    to_prop; try (apply clamp_bounds; lra); lra.
Qed.

Lemma bounceY_contained cv p :
  2 * Particle.size p <= Canvas.height cv ->
  let q := Particle.bounceY cv p in
  Particle.size q <= Particle.y q /\ Particle.y q <= Canvas.height cv - Particle.size q.
Proof.
  intros Hh. unfold Particle.bounceY, Particle.hitsY.
  destruct (Particle.y p + Particle.size p >=? Canvas.height cv) eqn:E1;
    destruct (Particle.y p - Particle.size p <=? 0) eqn:E2; cbn;
    to_prop; try (apply clamp_bounds; lra); lra.
Qed.

Lemma bounceX_body cv p :
  Particle.y (Particle.bounceX cv p) = Particle.y p
  /\ Particle.size (Particle.bounceX cv p) = Particle.size p.
Proof. unfold Particle.bounceX. now destruct (Particle.hitsX cv p). Qed.

Lemma bounceY_body cv p :
  Particle.x (Particle.bounceY cv p) = Particle.x p
  /\ Particle.size (Particle.bounceY cv p) = Particle.size p.
Proof. unfold Particle.bounceY. now destruct (Particle.hitsY cv p). Qed.

(** C1, as stated, fails: a particle half a unit inside the right-hand band
    edge moving right at speed 1 ends its step beyond [width - size]. *)
Lemma containment_fails_after_move :
  let canvas := Canvas.mk 200 200 in
  let this := Particle.mk 189.5 100 10 1 0 "#fff" in
  let this' := Particle.move (Some canvas) (TMouseCords.mk 0 0) [this] edit false
                 0 this in
  ~ (Particle.size this' <= Particle.x this'
     /\ Particle.x this' <= Canvas.width canvas - Particle.size this'
     /\ Particle.size this' <= Particle.y this'
     /\ Particle.y this' <= Canvas.height canvas - Particle.size this').
Proof.
  cbn. intros (_ & H & _). revert H. apply Qlt_not_le. reflexivity.
Qed.

(** C1, amended. In a canvas at least as wide and as high as the particle's
    diameter, the centre that the boundary handling of [move] leaves (before
    the main movement) satisfies [size <= x <= width - size] and
    [size <= y <= height - size]; the centre at the end of [move] is that
    one plus the velocity. *)
Theorem containment_after_boundary_handling
    (canvas : Canvas.t) (mousePos : TMouseCords.t)
    (particlesArr : list Particle.t) (mode : TCanvasMode)
    (velocity_leak : bool) (self : nat) (this : Particle.t)
    (Hw : 2 * Particle.size this <= Canvas.width canvas)
    (Hh : 2 * Particle.size this <= Canvas.height canvas) :
  let q := Particle.bounce canvas
             (Particle.collide mousePos particlesArr mode self this) in
  let this' := Particle.move (Some canvas) mousePos particlesArr mode
                 velocity_leak self this in
  (Particle.size q <= Particle.x q /\ Particle.x q <= Canvas.width canvas - Particle.size q)
  /\ (Particle.size q <= Particle.y q /\ Particle.y q <= Canvas.height canvas - Particle.size q)
  /\ Particle.size q = Particle.size this
  /\ Particle.x this' = Particle.x q + Particle.dirX q
  /\ Particle.y this' = Particle.y q + Particle.dirY q.
Proof.
  intros q this'.
  set (v := Particle.collide mousePos particlesArr mode self this) in *.
  destruct (collide_sameBody mousePos particlesArr mode self this)
    as (_ & _ & Hs & _). fold v in Hs.
  destruct (bounceX_body canvas v) as [_ HsX].
  destruct (bounceY_body canvas (Particle.bounceX canvas v)) as [HxY HsY].
  assert (Hsq : Particle.size q = Particle.size this) by (unfold q, Particle.bounce; congruence).
  split; [|split; [|split; [exact Hsq|]]].
  - unfold q, Particle.bounce. rewrite HxY, HsY.
    apply bounceX_contained. now rewrite Hs.
  - unfold q, Particle.bounce.
    apply bounceY_contained. now rewrite HsX, Hs.
  - subst this'. cbn. now destruct velocity_leak.
Qed.

Lemma containment_after_boundary_handling_witness :
  let canvas := Canvas.mk 200 200 in
  let this := Particle.mk 195 3 10 1 1 "#fff" in
  let q := Particle.bounce canvas
             (Particle.collide (TMouseCords.mk 0 0) [this] collision 0 this) in
  Particle.size q <= Particle.x q /\ Particle.x q <= Canvas.width canvas - Particle.size q.
Proof.
  intros canvas this.
  apply (containment_after_boundary_handling canvas (TMouseCords.mk 0 0) [this]
           collision true 0%nat this); vm_compute; discriminate.
Defined.

(** ** A particle that reaches the right wall *)

(** C3, as stated, fails: at [x = width - size - 0.5] the test of the X axis
    is evaluated before the movement and does not hold; after one step the
    velocity is still 1 and the centre is at [width - size + 0.5]. *)
Lemma right_wall_not_hit_in_one_step :
  let canvas := Canvas.mk 200 200 in
  let this := Particle.mk (200 - 10 - 0.5) 100 10 1 0 "#fff" in
  let mousePos := TMouseCords.mk 0 0 in
  let v := Particle.collide mousePos [this] edit 0 this in
  let this' := Particle.move (Some canvas) mousePos [this] edit false 0 this in
  Particle.hitsX canvas v = false
  /\ Particle.dirX this' == 1
  /\ ~ Particle.dirX this' == -0.5
  /\ Particle.x this' == 200 - 10 + 0.5
  /\ ~ Particle.x (Particle.bounce canvas v) == 200 - 10.
Proof.
  cbn. repeat split; try reflexivity; intros H; vm_compute in H; discriminate.
Qed.

Lemma lone_collide mousePos mode this :
  pointerHits mousePos mode this = false ->
  Particle.collide mousePos [this] mode 0 this = this.
Proof. intros Hp. now apply collide_quiet. Qed.

(** C3, amended. A single particle at [x = width - size - 0.5] with
    [vx = +1], clear of the left wall, with the velocity leak off and with
    neither the pointer nor the Y boundary triggering: the first step does
    not fire the X boundary check and moves the centre to
    [width - size + 0.5]; in the second step the check fires, [vx] becomes
    [-0.5] and [x] is clamped to [width - size], from where the movement
    takes it to [width - size - 0.5]. *)
Theorem right_wall_hit_in_second_step
    (canvas : Canvas.t) (mousePos : TMouseCords.t) (mode : TCanvasMode)
    (this : Particle.t)
    (Hx : Particle.x this == Canvas.width canvas - Particle.size this - 0.5)
    (Hv : Particle.dirX this == 1)
    (Hleft : 0 < Particle.x this - Particle.size this)
    (Hp1 : pointerHits mousePos mode this = false)
    (Hy1 : Particle.hitsY canvas this = false) :
  let p1 := Particle.move (Some canvas) mousePos [this] mode false 0 this in
  forall (Hp2 : pointerHits mousePos mode p1 = false)
         (Hy2 : Particle.hitsY canvas p1 = false),
  let b2 := Particle.bounce canvas (Particle.collide mousePos [p1] mode 0 p1) in
  let p2 := Particle.move (Some canvas) mousePos [p1] mode false 0 p1 in
  (Particle.hitsX canvas this = false
   /\ Particle.dirX p1 == 1
   /\ Particle.x p1 == Canvas.width canvas - Particle.size this + 0.5
   /\ animate (Some canvas) mousePos mode false [this] = [p1])
  /\ (Particle.hitsX canvas p1 = true
      /\ Particle.dirX b2 == -0.5
      /\ Particle.x b2 == Canvas.width canvas - Particle.size this
      /\ Particle.dirX p2 == -0.5
      /\ Particle.x p2 == Canvas.width canvas - Particle.size this - 0.5
      /\ animate (Some canvas) mousePos mode false [p1] = [p2]).
Proof.
  intros p1.
  assert (HX1 : Particle.hitsX canvas this = false).
  { unfold Particle.hitsX. apply orb_false_iff. split.
    - apply Qleb_gt. lra.
    - apply Qleb_gt. lra. }
  assert (E1 : p1 = Particle.advance this).
  { unfold p1, Particle.move. rewrite (lone_collide _ _ _ Hp1).
    unfold Particle.bounce, Particle.bounceX. rewrite HX1.
    unfold Particle.bounceY. now rewrite Hy1. }
  intros Hp2 Hy2 b2 p2.
  assert (HX2 : Particle.hitsX canvas p1 = true).
  { rewrite E1. unfold Particle.hitsX. cbn. apply orb_true_iff. left.
    apply Qle_bool_iff. lra. }
  assert (E2 : b2 = Particle.bounceX canvas p1).
  { unfold b2. rewrite (lone_collide _ _ _ Hp2).
    unfold Particle.bounce, Particle.bounceY.
    now rewrite hitsY_bounceX, Hy2. }
  assert (E3 : p2 = Particle.advance b2) by reflexivity.
  assert (Hb2 : Particle.dirX b2 == -0.5
                /\ Particle.x b2 == Canvas.width canvas - Particle.size this).
  { rewrite E2. unfold Particle.bounceX. rewrite HX2. rewrite E1. cbn.
    split; [lra|].
    unfold Math.min, Math.max. repeat step_if; to_prop; lra. }
  destruct Hb2 as [Hb2v Hb2x].
  split; [|split; [exact HX2 | split; [exact Hb2v | split; [exact Hb2x|]]]].
  - split; [exact HX1 | split; [| split; [| reflexivity]]];
      rewrite E1; cbn; lra.
  - split; [| split; [| reflexivity]]; rewrite E3; cbn; lra.
Qed.

Lemma right_wall_hit_in_second_step_witness :
  let canvas := Canvas.mk 200 200 in
  let this := Particle.mk 189.5 100 10 1 0 "#fff" in
  let mousePos := TMouseCords.mk 0 0 in
  let p1 := Particle.move (Some canvas) mousePos [this] collision false 0 this in
  Particle.hitsX canvas this = false /\ Particle.hitsX canvas p1 = true
  /\ Particle.x (Particle.bounce canvas (Particle.collide mousePos [p1] collision 0 p1))
     == Canvas.width canvas - Particle.size this.
Proof.
  intros canvas this mousePos p1.
  pose proof (right_wall_hit_in_second_step canvas mousePos collision this
                eq_refl eq_refl eq_refl eq_refl eq_refl eq_refl eq_refl) as H.
  cbv zeta in H. destruct H as [(H1 & _) (H2 & _ & H3 & _)].
  repeat split; assumption.
Defined.

(** ** Velocity leak *)

Section Leak.

Import Particle.

Lemma leakFactor_0 : leakFactor 0 == 1.
Proof. reflexivity. Qed.

Lemma leakFactor_S n :
  leakFactor (S n) == (1 - PARTICLE_VELOCITY_LEAK_MODIFIER) * leakFactor n.
Proof.
  unfold leakFactor. rewrite Nat2Z.inj_succ, <- Z.add_1_r.
  rewrite Qpower_plus by (intros H; vm_compute in H; discriminate).
  rewrite Qpower_1_r. ring.
Qed.

Lemma leakFactor_pos n : 0 < leakFactor n.
Proof. apply Qpower_0_lt. reflexivity. Qed.

Lemma inject_nat_S n :
  inject_Z (Z.of_nat (S n)) == inject_Z (Z.of_nat n) + 1.
Proof. rewrite Nat2Z.inj_succ, <- Z.add_1_r, inject_Z_plus. reflexivity. Qed.

Lemma inject_nat_nonneg n : 0 <= inject_Z (Z.of_nat n).
Proof. change (inject_Z 0 <= inject_Z (Z.of_nat n)). rewrite <- Zle_Qle. lia. Qed.

(** Bernoulli's bound: [leakFactor n <= 499 / (499 + n)]. *)
Lemma leakFactor_bound n :
  leakFactor n * (499 + inject_Z (Z.of_nat n)) <= 499.
Proof.
  induction n as [|n IH].
  - vm_compute. discriminate.
  - rewrite leakFactor_S, inject_nat_S.
    pose proof (leakFactor_pos n) as Hpos.
    pose proof (inject_nat_nonneg n) as Hn.
    unfold PARTICLE_VELOCITY_LEAK_MODIFIER.
    set (t := leakFactor n) in *. set (m := inject_Z (Z.of_nat n)) in *.
    assert (Htm : 0 <= t * m) by (apply Qmult_le_0_compat; lra).
    lra.
Qed.

Lemma leakFactor_lt_1 n : (0 < n)%nat -> leakFactor n < 1.
Proof.
  intros Hn. pose proof (leakFactor_bound n) as Hb.
  pose proof (leakFactor_pos n) as Hpos.
  assert (H1 : 1 <= inject_Z (Z.of_nat n)) 
    by (change (inject_Z 1 <= inject_Z (Z.of_nat n)); rewrite <- Zle_Qle; lia).
  set (t := leakFactor n) in *. set (m := inject_Z (Z.of_nat n)) in *.
  assert (Htm : t * 1 <= t * m) by (apply Qmult_le_l; lra).
  lra.
Qed.

(** Any bound is undercut from some tick on. *)
Lemma leakFactor_vanishes (V eps : Q) :
  0 <= V -> 0 < eps ->
  exists N : nat, forall m, (N <= m)%nat -> V * leakFactor m < eps.
Proof.
  intros HV Heps.
  set (B := 499 * V / eps).
  exists (Z.to_nat (Qceiling B)). intros m Hm.
  pose proof (Qle_ceiling B) as Hc.
  assert (HB : B <= inject_Z (Z.of_nat m)).
  { eapply Qle_trans; [exact Hc|]. rewrite <- Zle_Qle. lia. }
  assert (HBe : B * eps == 499 * V) by (unfold B; field; lra).
  pose proof (leakFactor_bound m) as Hb.
  pose proof (leakFactor_pos m) as Hpos.
  set (t := leakFactor m) in *. set (k := inject_Z (Z.of_nat m)) in *.
  assert (Hk : 0 <= k) by apply inject_nat_nonneg.
  (* V * t * (499 + k) <= 499 * V <= eps * k < eps * (499 + k) *)
  assert (H1 : (t * (499 + k)) * V <= 499 * V) by (apply Qmult_le_compat_r; lra).
  assert (H2 : B * eps <= k * eps) by (apply Qmult_le_compat_r; lra).
  assert (H3 : (V * t) * (499 + k) < eps * (499 + k)) by lra.
  apply Qmult_lt_r in H3; lra.
Qed.

(** A tick in which nothing triggers leaves the movement and the leak. *)
Lemma quiet_move canvas mousePos arr mode self p :
  quiet canvas mousePos arr mode self p = true ->
  move (Some canvas) mousePos arr mode true self p = leak true (advance p).
Proof.
  unfold quiet. rewrite !andb_true_iff, !negb_true_iff.
  intros [[[Hp Ho] HX] HY].
  unfold move. rewrite (collide_quiet _ _ _ _ _ Hp Ho).
  unfold bounce, bounceX. rewrite HX. unfold bounceY. now rewrite HY.
Qed.

Lemma leakRun_closed_form n p q :
  leakRun n p q ->
  dirX q == dirX p * leakFactor n /\ dirY q == dirY p * leakFactor n.
Proof.
  induction 1 as [p | n p q canvas mousePos arr mode self Hq Hrun IH].
  - rewrite leakFactor_0. split; ring.
  - rewrite (quiet_move _ _ _ _ _ _ Hq) in IH. cbn in IH.
    destruct IH as [IHx IHy].
    rewrite leakFactor_S, IHx, IHy. split; ring.
Qed.

End Leak.

Section LeakMonotone.

Import Particle.

Lemma scaled_sign (v f w : Q) :
  w == v * f -> 0 < f ->
  (0 < v -> 0 < w) /\ (v < 0 -> w < 0) /\ (v == 0 -> w == 0).
Proof.
  intros Hw Hf. repeat split; intros Hv; rewrite Hw.
  - now apply Qmult_lt_0_compat.
  - assert (0 < (- v) * f) by (apply Qmult_lt_0_compat; lra). lra.
  - rewrite Hv. ring.
Qed.

Lemma scaled_abs (v f w : Q) :
  w == v * f -> 0 < f -> Qabs w == Qabs v * f.
Proof.
  intros Hw Hf. rewrite Hw, Qabs_Qmult, (Qabs_pos f) by lra. reflexivity.
Qed.

Lemma abs_pos_of_nonzero (v : Q) : ~ v == 0 -> 0 < Qabs v.
Proof.
  intros Hv. apply Qabs_case; intros H.
  - destruct (Qlt_le_dec 0 v) as [|H']; [assumption|]. exfalso. apply Hv. lra.
  - destruct (Qlt_le_dec v 0) as [|H']; [lra|]. exfalso. apply Hv. lra.
Qed.

Lemma scaled_abs_lt (v f w : Q) :
  w == v * f -> 0 < f -> f < 1 -> ~ v == 0 -> Qabs w < Qabs v.
Proof.
  intros Hw Hf Hf1 Hv. rewrite (scaled_abs v f w Hw Hf).
  pose proof (abs_pos_of_nonzero v Hv) as Ha.
  assert (H : Qabs v * f < Qabs v * 1) by (apply Qmult_lt_l; assumption).
  lra.
Qed.

Lemma leakRun_one canvas mousePos arr mode self p :
  quiet canvas mousePos arr mode self p = true ->
  leakRun 1 p (move (Some canvas) mousePos arr mode true self p).
Proof. intros Hq. eapply leakRun_tick; [exact Hq | apply leakRun_done]. Qed.

(** In exact arithmetic, with the velocity leak on, over [n] consecutive
    ticks in which neither the pointer, nor another particle, nor a wall
    triggers, each velocity component is the initial one times
    [(1 - PARTICLE_VELOCITY_LEAK_MODIFIER) ^ n]: it keeps its sign, its
    magnitude is strictly smaller after every tick while it is not zero,
    and it falls below every positive bound from some tick on.  The leak
    with rounding is treated at the end of the file. *)
Theorem leak_monotonicity (n : nat) (p q : Particle.t) (Hrun : leakRun n p q) :
  (dirX q == dirX p * leakFactor n /\ dirY q == dirY p * leakFactor n)
  /\ ((0 < dirX p -> 0 < dirX q) /\ (dirX p < 0 -> dirX q < 0)
      /\ (dirX p == 0 -> dirX q == 0))
  /\ ((0 < dirY p -> 0 < dirY q) /\ (dirY p < 0 -> dirY q < 0)
      /\ (dirY p == 0 -> dirY q == 0))
  /\ ((0 < n)%nat ->
      (~ dirX p == 0 -> Qabs (dirX q) < Qabs (dirX p))
      /\ (~ dirY p == 0 -> Qabs (dirY q) < Qabs (dirY p)))
  /\ (forall canvas mousePos particlesArr mode self,
        quiet canvas mousePos particlesArr mode self q = true ->
        let q' := move (Some canvas) mousePos particlesArr mode true self q in
        (~ dirX q == 0 -> Qabs (dirX q') < Qabs (dirX q))
        /\ (~ dirY q == 0 -> Qabs (dirY q') < Qabs (dirY q)))
  /\ (forall eps, 0 < eps ->
        exists N : nat, forall m r, (N <= m)%nat -> leakRun m p r ->
          Qabs (dirX r) < eps /\ Qabs (dirY r) < eps).
Proof.
  destruct (leakRun_closed_form n p q Hrun) as [Hx Hy].
  pose proof (leakFactor_pos n) as Hf.
  split; [split; assumption|].
  split; [now apply (scaled_sign (dirX p) (leakFactor n))|].
  split; [now apply (scaled_sign (dirY p) (leakFactor n))|].
  split; [|split].
  - intros Hn. pose proof (leakFactor_lt_1 n Hn) as Hf1.
    split; intros Hv.
    + now apply (scaled_abs_lt (dirX p) (leakFactor n)).
    + now apply (scaled_abs_lt (dirY p) (leakFactor n)).
  - intros canvas mousePos particlesArr mode self Hq q'.
    destruct (leakRun_closed_form 1 q q' (leakRun_one _ _ _ _ _ _ Hq)) as [Hx' Hy'].
    pose proof (leakFactor_pos 1) as Hf'.
    pose proof (leakFactor_lt_1 1 ltac:(lia)) as Hf1.
    split; intros Hv.
    + now apply (scaled_abs_lt (dirX q) (leakFactor 1)).
    + now apply (scaled_abs_lt (dirY q) (leakFactor 1)).
  - intros eps Heps.
    destruct (leakFactor_vanishes (Qabs (dirX p)) eps (Qabs_nonneg _) Heps) as [Nx HNx].
    destruct (leakFactor_vanishes (Qabs (dirY p)) eps (Qabs_nonneg _) Heps) as [Ny HNy].
    exists (Nat.max Nx Ny). intros m r Hm Hr.
    destruct (leakRun_closed_form m p r Hr) as [Hrx Hry].
    pose proof (leakFactor_pos m) as Hfm.
    rewrite (scaled_abs _ _ _ Hrx Hfm), (scaled_abs _ _ _ Hry Hfm).
    split; [apply HNx | apply HNy]; lia.
Qed.

Lemma leak_monotonicity_witness :
  let canvas := Canvas.mk 200 200 in
  let p := Particle.mk 100 100 10 1 (-2) "#fff" in
  let q := move (Some canvas) (TMouseCords.mk 0 0) [p] collision true 0 p in
  Qabs (dirX q) < Qabs (dirX p) /\ Qabs (dirY q) < Qabs (dirY p) /\ dirY q < 0.
Proof.
  intros canvas p q.
  assert (Hrun : leakRun 1 p q).
  { apply (leakRun_tick 0 p q canvas (TMouseCords.mk 0 0) [p] collision 0%nat);
      [reflexivity | apply leakRun_done]. }
  destruct (leak_monotonicity 1 p q Hrun) as (_ & _ & (_ & Hneg & _) & Hlt & _).
  destruct (Hlt ltac:(lia)) as [HltX HltY].
  split; [apply HltX; discriminate|].
  split; [apply HltY; discriminate|].
  apply Hneg. reflexivity.
Defined.

(** Runs of every length exist for a moving particle: in a canvas of
    1000 x 1000, a lone particle of radius 10 that starts at (100, 100)
    with velocity (1, 0) never reaches a wall, since the leak bounds the
    whole way it travels by 500. *)
Lemma leakRun_exists (n : nat) :
  forall p : Particle.t,
    size p == 10 -> y p == 100 -> dirY p == 0 -> 0 < dirX p ->
    100 <= x p -> x p + 500 * dirX p <= 700 ->
    exists q, leakRun n p q.
Proof.
  induction n as [|n IH]; intros p Hs Hy Hvy Hvx Hx Hinv.
  - exists p. apply leakRun_done.
  - set (canvas := Canvas.mk 1000 1000).
    set (mousePos := TMouseCords.mk 0 0).
    assert (Hq : quiet canvas mousePos [p] edit 0 p = true).
    { unfold quiet, hitsX, hitsY. cbn.
      rewrite !andb_true_iff, !negb_true_iff, !orb_false_iff, !Qleb_gt.
      repeat split; lra. }
    destruct (IH (move (Some canvas) mousePos [p] edit true 0 p)) as [q Hrun].
    all: try (rewrite (quiet_move _ _ _ _ _ _ Hq); cbn;
              unfold PARTICLE_VELOCITY_LEAK_MODIFIER; lra).
    exists q. eapply leakRun_tick; eassumption.
Qed.

End LeakMonotone.


(** * Further properties of the code *)

(** ** The constructor *)

(** X1. A particle built on a canvas of positive size from three results of
    [Math.random] (each in [0, 1)) has an integer radius between
    [MIN_PARTICLE_SIZE] and [MAX_PARTICLE_SIZE], a centre in
    [0, width) x [0, height), no velocity and the colour it was given. *)
Theorem constructor_in_range
    (color : string) (canvas : Canvas.t) (r1 r2 r3 : number)
    (H1 : 0 <= r1 /\ r1 < 1) (H2 : 0 <= r2 /\ r2 < 1) (H3 : 0 <= r3 /\ r3 < 1)
    (Hw : 0 < Canvas.width canvas) (Hh : 0 < Canvas.height canvas) :
  let p := Particle.constructor color (Some canvas) r1 r2 r3 in
  (MIN_PARTICLE_SIZE <= Particle.size p /\ Particle.size p <= MAX_PARTICLE_SIZE)
  /\ (exists z : Z, Particle.size p = inject_Z z)
  /\ (0 <= Particle.x p /\ Particle.x p < Canvas.width canvas)
  /\ (0 <= Particle.y p /\ Particle.y p < Canvas.height canvas)
  /\ Particle.dirX p = 0 /\ Particle.dirY p = 0
  /\ Particle.color p = color.
Proof.
  cbn. unfold Math.floor, MAX_PARTICLE_SIZE, MIN_PARTICLE_SIZE.
  set (q := r3 * (15 - 5 + 1) + 5).
  assert (Hq : 5 <= q /\ q < 16) by (unfold q; lra).
  destruct Hq as [Hq5 Hq16].
  split; [split|].
  - change 5 with (inject_Z 5). rewrite <- Zle_Qle.
    rewrite <- (Qfloor_Z 5). now apply Qfloor_resp_le.
  - pose proof (Qfloor_le q) as Hfl.
    assert (Hlt : inject_Z (Qfloor q) < inject_Z 16) by (change (inject_Z 16) with 16; lra).
    rewrite <- Zlt_Qlt in Hlt.
    change 15 with (inject_Z 15). rewrite <- Zle_Qle. lia.
  - split; [now exists (Qfloor q)|].
    assert (Hx : r1 * Canvas.width canvas < 1 * Canvas.width canvas)
      by (apply Qmult_lt_r; tauto).
    assert (Hy : r2 * Canvas.height canvas < 1 * Canvas.height canvas)
      by (apply Qmult_lt_r; tauto).
    assert (Hx0 : 0 <= r1 * Canvas.width canvas) by (apply Qmult_le_0_compat; lra).
    assert (Hy0 : 0 <= r2 * Canvas.height canvas) by (apply Qmult_le_0_compat; lra).
    repeat split; try reflexivity; lra.
Qed.

Lemma constructor_in_range_witness :
  let p := Particle.constructor "#abc" (Some (Canvas.mk 300 150)) 0.25 0.5 0.999 in
  MIN_PARTICLE_SIZE <= Particle.size p /\ Particle.size p <= MAX_PARTICLE_SIZE.
Proof.
  apply (constructor_in_range "#abc" (Canvas.mk 300 150) 0.25 0.5 0.999);
    try split; vm_compute; congruence.
Defined.

(** ** Direction and size of the collision impulse *)

(** X2. When the collision test succeeds, the impulse on each axis points
    away from the point: the velocity component drops by
    [PARTICLE_COLLISION_VELOCITY] if the particle is on the low side of the
    point, rises by it if the particle is on the high side, and stays if
    the coordinates are equal. *)
Theorem collision_pushes_away
    (this : Particle.t) (cords : TMouseCords.t) (collisionRadius : number)
    (Hc : Particle.collides this cords collisionRadius = true) :
  let this' := Particle.collideWithRadius this cords collisionRadius in
  (Particle.x this < TMouseCords.x cords ->
   Particle.dirX this' = Particle.dirX this + - PARTICLE_COLLISION_VELOCITY)
  /\ (TMouseCords.x cords < Particle.x this ->
      Particle.dirX this' = Particle.dirX this + PARTICLE_COLLISION_VELOCITY)
  /\ (Particle.x this == TMouseCords.x cords ->
      Particle.dirX this' = Particle.dirX this)
  /\ (Particle.y this < TMouseCords.y cords ->
      Particle.dirY this' = Particle.dirY this + - PARTICLE_COLLISION_VELOCITY)
  /\ (TMouseCords.y cords < Particle.y this ->
      Particle.dirY this' = Particle.dirY this + PARTICLE_COLLISION_VELOCITY)
  /\ (Particle.y this == TMouseCords.y cords ->
      Particle.dirY this' = Particle.dirY this).
Proof.
  cbv zeta. unfold Particle.collideWithRadius. rewrite Hc.
  repeat split; intros H; unfold Particle.push;
    repeat step_if; to_prop; try reflexivity; lra.
Qed.

Lemma collision_pushes_away_witness :
  let this := Particle.mk 100 100 10 0 0 "#fff" in
  Particle.dirX (Particle.collideWithRadius this (TMouseCords.mk 95 104) 10)
  = 0 + PARTICLE_COLLISION_VELOCITY.
Proof.
  intros this.
  apply (collision_pushes_away this (TMouseCords.mk 95 104) 10 eq_refl).
  reflexivity.
Defined.



Lemma push_step_bound (this : Particle.t) (c : TMouseCords.t) :
  Qabs (Particle.dirX (Particle.push this c) - Particle.dirX this)
    <= PARTICLE_COLLISION_VELOCITY
  /\ Qabs (Particle.dirY (Particle.push this c) - Particle.dirY this)
     <= PARTICLE_COLLISION_VELOCITY.
Proof.
  unfold Particle.push, PARTICLE_COLLISION_VELOCITY.
  split; apply Qabs_Qle_condition; repeat step_if; to_prop; split; lra.
Qed.

Lemma collideWithRadius_bound (this : Particle.t) (c : TMouseCords.t) (r : number) :
  Qabs (Particle.dirX (Particle.collideWithRadius this c r) - Particle.dirX this)
    <= PARTICLE_COLLISION_VELOCITY
  /\ Qabs (Particle.dirY (Particle.collideWithRadius this c r) - Particle.dirY this)
     <= PARTICLE_COLLISION_VELOCITY.
Proof.
  unfold Particle.collideWithRadius. destruct (Particle.collides this c r).
  - apply push_step_bound.
  - unfold PARTICLE_COLLISION_VELOCITY.
    split; apply Qabs_Qle_condition; split; lra.
Qed.

Lemma collideLoop_bound (self : nat) (rest : list Particle.t) :
  forall (i : nat) (this : Particle.t),
    Qabs (Particle.dirX (Particle.collideLoop self i rest this) - Particle.dirX this)
      <= PARTICLE_COLLISION_VELOCITY * inject_Z (Z.of_nat (length rest))
    /\ Qabs (Particle.dirY (Particle.collideLoop self i rest this) - Particle.dirY this)
       <= PARTICLE_COLLISION_VELOCITY * inject_Z (Z.of_nat (length rest)).
Proof.
  induction rest as [|p1 rest IH]; intros i this.
  - cbn [Particle.collideLoop length]. change (inject_Z (Z.of_nat 0)) with 0.
    unfold PARTICLE_COLLISION_VELOCITY.
    split; apply Qabs_Qle_condition; split; lra.
  - cbn [Particle.collideLoop length].
    set (this1 := if Nat.eqb i self then this
                  else Particle.collideWithRadius this (Particle.cords p1) (Particle.size p1)).
    destruct (IH (S i) this1) as [IHx IHy].
    assert (H1 : Qabs (Particle.dirX this1 - Particle.dirX this) <= PARTICLE_COLLISION_VELOCITY
                 /\ Qabs (Particle.dirY this1 - Particle.dirY this) <= PARTICLE_COLLISION_VELOCITY).
    { unfold this1. destruct (Nat.eqb i self).
      - unfold PARTICLE_COLLISION_VELOCITY. split; apply Qabs_Qle_condition; split; lra.
      - apply collideWithRadius_bound. }
    destruct H1 as [H1x H1y].
    rewrite inject_nat_S.
    apply Qabs_Qle_condition in IHx, IHy, H1x, H1y.
    split; apply Qabs_Qle_condition; split; lra.
Qed.

(** X4. One collision phase changes each velocity component by at most
    [PARTICLE_COLLISION_VELOCITY] per tested object: the particles of the
    array and the pointer. *)
Theorem collide_impulse_bounded
    (mousePos : TMouseCords.t) (particlesArr : list Particle.t)
    (mode : TCanvasMode) (self : nat) (this : Particle.t) :
  let this' := Particle.collide mousePos particlesArr mode self this in
  let n := inject_Z (Z.of_nat (length particlesArr)) + 1 in
  Qabs (Particle.dirX this' - Particle.dirX this) <= PARTICLE_COLLISION_VELOCITY * n
  /\ Qabs (Particle.dirY this' - Particle.dirY this) <= PARTICLE_COLLISION_VELOCITY * n.
Proof.
  cbv zeta. unfold Particle.collide.
  set (this0 := match mode with
                | collision => Particle.collideWithRadius this mousePos MOUSE_COLLISION_RADIUS
                | edit => this
                end).
  destruct (collideLoop_bound self particlesArr 0 this0) as [Lx Ly].
  assert (H0 : Qabs (Particle.dirX this0 - Particle.dirX this) <= PARTICLE_COLLISION_VELOCITY
               /\ Qabs (Particle.dirY this0 - Particle.dirY this) <= PARTICLE_COLLISION_VELOCITY).
  { unfold this0. destruct mode.
    - apply collideWithRadius_bound.
    - unfold PARTICLE_COLLISION_VELOCITY. split; apply Qabs_Qle_condition; split; lra. }
  destruct H0 as [H0x H0y].
  apply Qabs_Qle_condition in Lx, Ly, H0x, H0y.
  split; apply Qabs_Qle_condition; split; lra.
Qed.

(** ** Damping at the walls *)

Lemma Qabs_scale (v c : Q) : Qabs (v * c) == Qabs v * Qabs c.
Proof. apply Qabs_Qmult. Qed.

(** X6. The boundary handling never speeds a particle up: each velocity
    component keeps or loses magnitude, both are at most half as large as
    before whenever one of the two wall tests holds, and nothing at all
    changes when neither holds. *)
Theorem bounce_damps (canvas : Canvas.t) (p : Particle.t) :
  let q := Particle.bounce canvas p in
  (Qabs (Particle.dirX q) <= Qabs (Particle.dirX p)
   /\ Qabs (Particle.dirY q) <= Qabs (Particle.dirY p))
  /\ (Particle.hitsX canvas p || Particle.hitsY canvas p = true ->
      Qabs (Particle.dirX q) <= Qabs (Particle.dirX p) * 0.5
      /\ Qabs (Particle.dirY q) <= Qabs (Particle.dirY p) * 0.5)
  /\ (Particle.hitsX canvas p || Particle.hitsY canvas p = false -> q = p).
Proof.
  cbv zeta.
  pose proof (Qabs_nonneg (Particle.dirX p)) as Hx.
  pose proof (Qabs_nonneg (Particle.dirY p)) as Hy.
  unfold Particle.bounce, Particle.bounceY. rewrite hitsY_bounceX.
  unfold Particle.bounceX.
  destruct (Particle.hitsX canvas p), (Particle.hitsY canvas p);
    cbn [Particle.dirX Particle.dirY Particle.set_x Particle.set_y
         Particle.set_dirX Particle.set_dirY orb];
    rewrite ?Qabs_scale;
    change (Qabs (-0.5)) with 0.5; change (Qabs 0.5) with 0.5;
    (split; [split; lra|]);
    (split; [intros H; try discriminate H; split; lra
            | intros H; try discriminate H; reflexivity]).
Qed.

(** ** Coasting *)

Lemma quiet_move_no_leak canvas mousePos arr mode self p :
  quiet canvas mousePos arr mode self p = true ->
  Particle.move (Some canvas) mousePos arr mode false self p = Particle.advance p.
Proof.
  unfold quiet. rewrite !andb_true_iff, !negb_true_iff.
  intros [[[Hp Ho] HX] HY].
  unfold Particle.move. rewrite (collide_quiet _ _ _ _ _ Hp Ho).
  unfold Particle.bounce, Particle.bounceX. rewrite HX.
  unfold Particle.bounceY. now rewrite HY.
Qed.

(** X8. With the velocity leak off and nothing triggering, a tick writes
    the position only, adding the velocity to it once; so over any number
    of such ticks the velocity, the radius and the colour stay what they
    are. *)
Theorem coasting_keeps_velocity (n : nat) (p q : Particle.t) (Hrun : coastRun n p q) :
  (Particle.dirX q = Particle.dirX p /\ Particle.dirY q = Particle.dirY p
   /\ Particle.size q = Particle.size p /\ Particle.color q = Particle.color p)
  /\ forall canvas mousePos particlesArr mode self,
       quiet canvas mousePos particlesArr mode self q = true ->
       let q' := Particle.move (Some canvas) mousePos particlesArr mode false self q in
       Particle.x q' = Particle.x q + Particle.dirX q
       /\ Particle.y q' = Particle.y q + Particle.dirY q
       /\ Particle.dirX q' = Particle.dirX q /\ Particle.dirY q' = Particle.dirY q.
Proof.
  split.
  - induction Hrun as [p | n p q canvas mousePos arr mode self Hq Hrun IH].
    + repeat split.
    + rewrite (quiet_move_no_leak _ _ _ _ _ _ Hq) in IH. exact IH.
  - intros canvas mousePos particlesArr mode self Hq q'. subst q'.
    rewrite (quiet_move_no_leak _ _ _ _ _ _ Hq). repeat split.
Qed.

Lemma coasting_keeps_velocity_witness :
  let canvas := Canvas.mk 200 200 in
  let p := Particle.mk 100 100 10 1 (-2) "#fff" in
  let q := Particle.move (Some canvas) (TMouseCords.mk 0 0) [p] collision false 0 p in
  Particle.dirX q = Particle.dirX p /\ Particle.dirY q = Particle.dirY p.
Proof.
  intros canvas p q.
  assert (Hrun : coastRun 1 p q).
  { apply (coastRun_tick 0 p q canvas (TMouseCords.mk 0 0) [p] collision 0%nat);
      [reflexivity | apply coastRun_done]. }
  destruct (coasting_keeps_velocity 1 p q Hrun) as ((Hx & Hy & _) & _).
  split; assumption.
Defined.

(** ** Picking: the hit test *)

Lemma findIndexWithCords_Some (particles : list Particle.t) (x y : number) (i : nat) :
  findIndexWithCords particles x y = Some i
  <-> exists p, particles !! i = Some p /\ inBox x y p = true
                /\ forall j q, (j < i)%nat -> particles !! j = Some q ->
                               inBox x y q = false.
Proof.
  unfold findIndexWithCords. split.
  - intros H. apply fmap_Some in H as ([j p] & Hfind & ->). cbn.
    apply list_find_Some in Hfind as (Hp & Hbox & Hfirst).
    exists p. repeat split; try assumption.
    intros k q Hk Hq. apply not_true_iff_false. now apply (Hfirst k q).
  - intros (p & Hp & Hbox & Hfirst).
    apply fmap_Some. exists (i, p). split; [|reflexivity].
    apply list_find_Some. repeat split; try assumption.
    intros k q Hq Hk. rewrite (Hfirst k q Hk Hq). discriminate.
Qed.

Lemma findIndexWithCords_None (particles : list Particle.t) (x y : number) :
  findIndexWithCords particles x y = None
  <-> forall i p, particles !! i = Some p -> inBox x y p = false.
Proof.
  unfold findIndexWithCords. rewrite fmap_None, list_find_None, Forall_lookup.
  split; intros H i p Hp; specialize (H i p Hp).
  - now apply not_true_iff_false.
  - now apply not_true_iff_false.
Qed.





(** X10. The hit test is a square, the particle is drawn and collides as a
    disc: the corner [(x + size, y + size)] of the square is picked although
    its distance from the centre exceeds the radius. *)
Theorem box_corner_outside_disc (p : Particle.t) (Hs : 0 < Particle.size p) :
  let cx := Particle.x p + Particle.size p in
  let cy := Particle.y p + Particle.size p in
  inBox cx cy p = true
  /\ findParticleWithCords [p] cx cy = Some p
  /\ (Q2R (Particle.size p) < distance p (TMouseCords.mk cx cy))%R.
Proof.
  intros cx cy.
  assert (Hbox : inBox cx cy p = true)
    by (apply inBox_spec; unfold cx, cy; repeat split; lra).
  split; [exact Hbox|]. split.
  - unfold findParticleWithCords. cbn. now rewrite Hbox.
  - unfold distance. cbn.
    set (s := Particle.size p) in *.
    assert (Hs0 : (0 <= Q2R s)%R).
    { apply Qlt_le_weak, Qle_Rle in Hs. now rewrite RMicromega.Q2R_0 in Hs. }
    rewrite <- (sqrt_square (Q2R s)) at 1 by exact Hs0.
    apply sqrt_lt_1_alt. split; [Lra.nra|].
    rewrite <- Q2R_mult. apply Qlt_Rlt.
    assert (Hss : 0 < s * s) by (apply Qmult_lt_0_compat; assumption).
    unfold cx, cy. fold s. lra.
Qed.

Lemma box_corner_outside_disc_witness :
  inBox (100 + 10) (100 + 10) (Particle.mk 100 100 10 0 0 "#fff") = true.
Proof.
  apply (box_corner_outside_disc (Particle.mk 100 100 10 0 0 "#fff")).
  reflexivity.
Defined.

(** ** One frame *)

Section OneFrame.

Variables (canvas : option Canvas.t) (boundingMouse : TMouseCords.t)
  (mode : TCanvasMode) (velocity_leak : bool).

Local Abbreviation moveAt' := (moveAt canvas boundingMouse mode velocity_leak).
Local Abbreviation upTo k := (animateUpTo k canvas boundingMouse mode velocity_leak).
Local Abbreviation frame := (animate canvas boundingMouse mode velocity_leak).
Local Abbreviation move' := (Particle.move canvas boundingMouse).

Lemma moveAt_length (ps : list Particle.t) (i : nat) :
  length (moveAt' ps i) = length ps.
Proof.
  unfold moveAt. destruct (ps !! i); [apply length_insert | reflexivity].
Qed.

Lemma moveAt_lookup_ne (ps : list Particle.t) (i j : nat) :
  i <> j -> moveAt' ps i !! j = ps !! j.
Proof.
  intros Hij. unfold moveAt. destruct (ps !! i); [|reflexivity].
  now apply list_lookup_insert_ne.
Qed.

Lemma moveAt_lookup_eq (ps : list Particle.t) (i : nat) :
  moveAt' ps i !! i = move' ps mode velocity_leak i <$> ps !! i.
Proof.
  unfold moveAt. destruct (ps !! i) as [p|] eqn:E; cbn.
  - apply list_lookup_insert_eq. now apply lookup_lt_Some in E.
  - exact E.
Qed.

Lemma animateUpTo_S (k : nat) (ps : list Particle.t) :
  upTo (S k) ps = moveAt' (upTo k ps) k.
Proof. unfold animateUpTo. now rewrite seq_S, fold_left_app. Qed.

Lemma animateUpTo_length (k : nat) (ps : list Particle.t) :
  length (upTo k ps) = length ps.
Proof.
  induction k as [|k IH]; [reflexivity|].
  now rewrite animateUpTo_S, moveAt_length.
Qed.

(** The particles from index [k] on have not moved yet. *)
Lemma animateUpTo_lookup_ge (k j : nat) (ps : list Particle.t) :
  (k <= j)%nat -> upTo k ps !! j = ps !! j.
Proof.
  induction k as [|k IH]; intros Hkj; [reflexivity|].
  rewrite animateUpTo_S, moveAt_lookup_ne by lia. apply IH. lia.
Qed.

(** The particles before index [k] are not touched again. *)
Lemma animateUpTo_lookup_lt (n j : nat) (ps : list Particle.t) :
  (j < n)%nat -> upTo n ps !! j = upTo (S j) ps !! j.
Proof.
  induction n as [|n IH]; intros Hjn; [lia|].
  destruct (decide (j = n)) as [->|Hne]; [reflexivity|].
  rewrite animateUpTo_S, moveAt_lookup_ne by lia. apply IH. lia.
Qed.

Lemma animateUpTo_split (i : nat) (ps : list Particle.t) :
  (i <= length ps)%nat ->
  upTo i ps = take i (frame ps) ++ drop i ps.
Proof.
  intros Hi. apply list_eq. intros j.
  assert (Hlen : length (take i (frame ps)) = i).
  { rewrite length_take. unfold animate. fold (upTo (length ps) ps).
    rewrite animateUpTo_length. lia. }
  destruct (le_lt_dec i j) as [Hij|Hji].
  - rewrite lookup_app_r, Hlen, lookup_drop by lia.
    rewrite animateUpTo_lookup_ge by assumption. f_equal. lia.
  - rewrite lookup_app_l, lookup_take_lt by lia.
    unfold animate. fold (upTo (length ps) ps).
    rewrite (animateUpTo_lookup_lt (length ps) j) by lia.
    now apply animateUpTo_lookup_lt.
Qed.

Lemma animate_lookup (ps : list Particle.t) (i : nat) :
  frame ps !! i = move' (upTo i ps) mode velocity_leak i <$> ps !! i.
Proof.
  destruct (le_lt_dec (length ps) i) as [Hge|Hlt].
  - rewrite (proj2 (lookup_ge_None ps i) Hge). cbn.
    apply lookup_ge_None. unfold animate. fold (upTo (length ps) ps).
    now rewrite animateUpTo_length.
  - unfold animate. fold (upTo (length ps) ps).
    rewrite (animateUpTo_lookup_lt (length ps) i) by assumption.
    rewrite animateUpTo_S, moveAt_lookup_eq.
    now rewrite animateUpTo_lookup_ge by lia.
Qed.

(** X11. A frame is a single pass in array order: the particle at index [i]
    makes its step against an array in which the particles before [i] are
    already where this frame has put them and the particles from [i] on are
    still where the previous frame left them. *)
Theorem animate_is_single_pass (ps : list Particle.t) (i : nat) (p : Particle.t)
    (Hp : ps !! i = Some p) :
  frame ps !! i
  = Some (move' (take i (frame ps) ++ drop i ps) mode velocity_leak i p).
Proof.
  rewrite animate_lookup, Hp. cbn.
  rewrite animateUpTo_split; [reflexivity|].
  apply lookup_lt_Some in Hp. lia.
Qed.

Lemma move_keeps_size_color (arr : list Particle.t) (self : nat) (this : Particle.t) :
  Particle.size (move' arr mode velocity_leak self this) = Particle.size this
  /\ Particle.color (move' arr mode velocity_leak self this) = Particle.color this.
Proof.
  unfold Particle.move. destruct canvas as [cv|]; [|split; reflexivity].
  destruct (collide_sameBody boundingMouse arr mode self this) as (_ & _ & Hs & Hc).
  set (v := Particle.collide boundingMouse arr mode self this) in *.
  assert (Hb : Particle.size (Particle.bounce cv v) = Particle.size v
               /\ Particle.color (Particle.bounce cv v) = Particle.color v).
  { unfold Particle.bounce, Particle.bounceY, Particle.bounceX.
    destruct (Particle.hitsX cv v);
      match goal with |- context [Particle.hitsY cv ?t] => destruct (Particle.hitsY cv t) end;
      split; reflexivity. }
  destruct Hb as [Hbs Hbc].
  destruct velocity_leak; cbn; split; congruence.
Qed.

Lemma animate_length (ps : list Particle.t) : length (frame ps) = length ps.
Proof. unfold animate. fold (upTo (length ps) ps). apply animateUpTo_length. Qed.

Lemma animate_sizes (ps : list Particle.t) :
  Particle.size <$> frame ps = Particle.size <$> ps.
Proof.
  apply list_eq. intros i. rewrite !list_lookup_fmap, animate_lookup.
  destruct (ps !! i) as [p|]; [|reflexivity]. cbn. f_equal.
  apply move_keeps_size_color.
Qed.

(** X12. A frame neither adds nor removes particles, and leaves the radius
    and the colour of each one as they were. *)
Theorem animate_keeps_population (ps : list Particle.t) :
  length (frame ps) = length ps
  /\ forall i p', frame ps !! i = Some p' ->
       exists p, ps !! i = Some p
                 /\ Particle.size p' = Particle.size p
                 /\ Particle.color p' = Particle.color p.
Proof.
  split.
  - apply animate_length.
  - intros i p' Hp'. rewrite animate_lookup in Hp'.
    destruct (ps !! i) as [p|]; [|discriminate].
    injection Hp' as <-. exists p. split; [reflexivity|].
    apply move_keeps_size_color.
Qed.

End OneFrame.

Lemma animate_is_single_pass_witness :
  let a := Particle.mk 100 100 10 1 0 "#a" in
  let b := Particle.mk 115 100 10 0 0 "#b" in
  let canvas := Some (Canvas.mk 400 400) in
  let m := TMouseCords.mk 0 0 in
  animate canvas m edit false [a; b] !! 1%nat
  = Some (Particle.move canvas m
            (take 1 (animate canvas m edit false [a; b]) ++ drop 1 [a; b])
            edit false 1 b).
Proof.
  intros a b canvas m.
  apply (animate_is_single_pass canvas m edit false [a; b] 1 b).
  reflexivity.
Defined.

(** ** Creation of the population *)

Lemma newParticle_size (canvas : Canvas.t) (random : nat -> number) (k : nat) :
  (forall n, 0 <= random n /\ random n < 1) ->
  MIN_PARTICLE_SIZE <= Particle.size (newParticle canvas random k)
  /\ Particle.size (newParticle canvas random k) <= MAX_PARTICLE_SIZE.
Proof.
  intros Hr. unfold newParticle. cbn.
  unfold Math.floor, MAX_PARTICLE_SIZE, MIN_PARTICLE_SIZE.
  set (q := random (k + (k + (k + (k + 0))) + 3)%nat * (15 - 5 + 1) + 5).
  destruct (Hr (k + (k + (k + (k + 0))) + 3)%nat) as [H0 H1].
  assert (Hq : 5 <= q /\ q < 16) by (unfold q; lra).
  destruct Hq as [Hq5 Hq16]. split.
  - change 5 with (inject_Z 5). rewrite <- Zle_Qle.
    rewrite <- (Qfloor_Z 5). now apply Qfloor_resp_le.
  - pose proof (Qfloor_le q) as Hfl.
    assert (Hlt : inject_Z (Qfloor q) < inject_Z 16) by (change (inject_Z 16) with 16; lra).
    rewrite <- Zlt_Qlt in Hlt.
    change 15 with (inject_Z 15). rewrite <- Zle_Qle. lia.
Qed.

Lemma createParticles_lookup (canvas : Canvas.t) (random : nat -> number)
    (current : list Particle.t) (i : nat) (p : Particle.t) :
  (length current <= MAX_PARTICLES)%nat ->
  createParticles (Some canvas) random current !! i = Some p ->
  (i < MAX_PARTICLES)%nat /\ p = newParticle canvas random i.
Proof.
  intros Hlen. unfold createParticles.
  destruct (Nat.ltb_spec MAX_PARTICLES (length current)) as [Hgt|_]; [lia|].
  change (List.map (newParticle canvas random) (seq 0 MAX_PARTICLES))
    with (newParticle canvas random <$> seq 0 MAX_PARTICLES).
  rewrite list_lookup_fmap. intros H.
  apply fmap_Some in H as (k & Hk & ->).
  apply lookup_seq in Hk as [-> Hlt]. now split.
Qed.

(** X13. When the canvas and its context exist and the array holds at most
    [MAX_PARTICLES] particles, the effect replaces it by exactly
    [MAX_PARTICLES] new ones, each at rest and with a radius between
    [MIN_PARTICLE_SIZE] and [MAX_PARTICLE_SIZE]; without a canvas, or with
    more than [MAX_PARTICLES] particles already, the array stays. *)
Theorem createParticles_population
    (canvas : Canvas.t) (random : nat -> number) (current : list Particle.t)
    (Hr : forall n, 0 <= random n /\ random n < 1) :
  ((length current <= MAX_PARTICLES)%nat ->
   length (createParticles (Some canvas) random current) = MAX_PARTICLES
   /\ forall i p, createParticles (Some canvas) random current !! i = Some p ->
        (MIN_PARTICLE_SIZE <= Particle.size p /\ Particle.size p <= MAX_PARTICLE_SIZE)
        /\ Particle.dirX p = 0 /\ Particle.dirY p = 0)
  /\ ((MAX_PARTICLES < length current)%nat ->
      createParticles (Some canvas) random current = current)
  /\ createParticles None random current = current.
Proof.
  split; [|split].
  - intros Hlen. split.
    + unfold createParticles.
      destruct (Nat.ltb_spec MAX_PARTICLES (length current)) as [Hgt|_]; [lia|].
      now rewrite length_map, length_seq.
    + intros i p Hp.
      apply (createParticles_lookup canvas random current i p Hlen) in Hp as [_ ->].
      split; [now apply newParticle_size | split; reflexivity].
  - intros Hgt. unfold createParticles.
    destruct (Nat.ltb_spec MAX_PARTICLES (length current)) as [_|Hle]; [reflexivity | lia].
  - reflexivity.
Qed.

Lemma createParticles_population_witness :
  length (createParticles (Some (Canvas.mk 300 150)) (fun _ => 0.5) [])
  = MAX_PARTICLES.
Proof.
  assert (Hr : forall n : nat, 0 <= (fun _ : nat => 0.5) n /\ (fun _ : nat => 0.5) n < 1)
    by (intros n; split; vm_compute; congruence).
  destruct (createParticles_population (Canvas.mk 300 150) (fun _ => 0.5) [] Hr)
    as [H _].
  apply H. cbn. lia.
Defined.

(** ** The event handlers *)

(** X14. A click changes nothing but the selection, and only in edit mode:
    there, when some particle's square contains the pointer in canvas
    coordinates, the selection becomes the first such particle in array
    order, whatever was selected before; a click that hits no particle
    keeps the selection, so a click never deselects. *)
Theorem click_selects_first_hit
    (rect : DOMRect.t) (clientX clientY : number) (st : AppState) :
  let st' := handleMouseClickOverParticle rect clientX clientY st in
  let x := clientX - DOMRect.left rect in
  let y := clientY - DOMRect.top rect in
  (canvasRef st' = canvasRef st /\ modeRef st' = modeRef st
   /\ particlesRef st' = particlesRef st /\ mousePosRef st' = mousePosRef st
   /\ velocityLeakRef st' = velocityLeakRef st)
  /\ (modeRef st = collision -> st' = st)
  /\ (modeRef st = edit ->
      forall i p, particlesRef st !! i = Some p -> inBox x y p = true ->
                  (forall j q, (j < i)%nat -> particlesRef st !! j = Some q ->
                               inBox x y q = false) ->
                  activeParticle st' = Some i)
  /\ (modeRef st = edit ->
      (forall i p, particlesRef st !! i = Some p -> inBox x y p = false) ->
      st' = st)
  /\ (modeRef st = edit ->
      forall i p, particlesRef st !! i = Some p -> inBox x y p = true ->
                  exists j, (j <= i)%nat /\ activeParticle st' = Some j)
  /\ (activeParticle st' <> activeParticle st ->
      modeRef st = edit
      /\ exists i p, activeParticle st' = Some i
                     /\ particlesRef st !! i = Some p /\ inBox x y p = true
                     /\ forall j q, (j < i)%nat -> particlesRef st !! j = Some q ->
                                    inBox x y q = false)
  /\ (activeParticle st' = None -> activeParticle st = None).
Proof.
  cbv zeta. unfold handleMouseClickOverParticle, convertCordsToCanvasCords.
  cbn [TMouseCords.x TMouseCords.y].
  set (x := clientX - DOMRect.left rect). set (y := clientY - DOMRect.top rect).
  destruct (modeRef st) eqn:Hm.
  - split; [repeat split; congruence|]. split; [reflexivity|].
    split; [discriminate|]. split; [discriminate|]. split; [discriminate|].
    split; [intros H; now contradict H | trivial].
  - destruct (findIndexWithCords (particlesRef st) x y) as [k|] eqn:E; cbn.
    + pose proof E as E'.
      apply findIndexWithCords_Some in E' as (pk & Hpk & Hbox & Hfirst).
      split; [repeat split; congruence|]. split; [discriminate|].
      split; [|split; [|split; [|split]]].
      * intros _ i p Hp Hb Hmin. f_equal.
        destruct (lt_eq_lt_dec k i) as [[Hlt|Heq]|Hgt]; [|exact Heq|].
        -- rewrite (Hmin k pk Hlt Hpk) in Hbox. discriminate.
        -- rewrite (Hfirst i p Hgt Hp) in Hb. discriminate.
      * intros _ Hnone. rewrite (Hnone k pk Hpk) in Hbox. discriminate.
      * intros _ i p Hp Hb. exists k. split; [|reflexivity].
        destruct (le_lt_dec k i) as [|Hlt]; [assumption|].
        rewrite (Hfirst i p Hlt Hp) in Hb. discriminate.
      * intros _. split; [reflexivity|].
        exists k, pk. repeat split; assumption.
      * discriminate.
    + pose proof (proj1 (findIndexWithCords_None _ _ _) E) as Hnone.
      split; [repeat split; congruence|]. split; [discriminate|].
      split; [|split; [|split; [|split]]].
      * intros _ i p Hp Hb _. rewrite (Hnone i p Hp) in Hb. discriminate.
      * reflexivity.
      * intros _ i p Hp Hb. rewrite (Hnone i p Hp) in Hb. discriminate.
      * intros H. now contradict H.
      * trivial.
Qed.

Lemma editActive_length (f : Particle.t -> Particle.t) (st : AppState) :
  length (particlesRef (editActive f st)) = length (particlesRef st).
Proof.
  unfold editActive. destruct (activeParticle st) as [i|]; [|reflexivity].
  destruct (particlesRef st !! i); [apply length_insert | reflexivity].
Qed.

Lemma editActive_selection (f : Particle.t -> Particle.t) (st : AppState) :
  activeParticle (editActive f st) = activeParticle st.
Proof.
  unfold editActive. destruct (activeParticle st) as [i|] eqn:E; [|exact E].
  destruct (particlesRef st !! i); cbn; exact E.
Qed.

Lemma handle_length (st : AppState) (e : Event) :
  length (particlesRef (handle st e)) = length (particlesRef st).
Proof.
  destruct e; cbn; try reflexivity; try apply editActive_length.
  - apply animate_length.
  - unfold handleMouseClickOverParticle. destruct (modeRef st); [reflexivity|].
    now destruct (findIndexWithCords _ _ _).
Qed.

Lemma handle_selection (st : AppState) (e : Event) (i : nat) :
  (forall k, activeParticle st = Some k -> (k < length (particlesRef st))%nat) ->
  activeParticle (handle st e) = Some i ->
  (i < length (particlesRef (handle st e)))%nat.
Proof.
  intros Hvalid Hi. rewrite handle_length.
  destruct e; cbn in Hi; try (now apply Hvalid);
    try (rewrite editActive_selection in Hi; now apply Hvalid).
  unfold handleMouseClickOverParticle, convertCordsToCanvasCords in Hi.
  destruct (modeRef st); [now apply Hvalid|]. cbn in Hi.
  destruct (findIndexWithCords _ _ _) as [k|] eqn:E; cbn in Hi; [|now apply Hvalid].
  injection Hi as <-.
  apply findIndexWithCords_Some in E as (p & Hp & _).
  now apply lookup_lt_Some in Hp.
Qed.

(** X15. Whatever the user and the frames do, the number of particles stays
    what it is, and a selection that refers to a particle of the array
    keeps doing so. *)
Theorem run_keeps_count_and_selection (events : list Event) (st : AppState)
    (Hvalid : forall k, activeParticle st = Some k ->
                        (k < length (particlesRef st))%nat) :
  length (particlesRef (run events st)) = length (particlesRef st)
  /\ forall i, activeParticle (run events st) = Some i ->
               (i < length (particlesRef (run events st)))%nat.
Proof.
  revert st Hvalid. unfold run.
  induction events as [|e events IH]; intros st Hvalid; cbn.
  - split; [reflexivity | exact Hvalid].
  - destruct (IH (handle st e)) as [IHlen IHsel].
    + intros k. now apply handle_selection.
    + split; [rewrite IHlen; apply handle_length | exact IHsel].
Qed.

Lemma run_keeps_count_and_selection_witness :
  let p := Particle.mk 100 100 10 0 0 "#fff" in
  let st := mkAppState (Canvas.mk 200 200) collision [p] (TMouseCords.mk 0 0) false None in
  let events := [SetMode edit; Click (DOMRect.mk 8 8) 110 105;
                 Frame (DOMRect.mk 8 8); EditSize 40] in
  length (particlesRef (run events st)) = 1%nat.
Proof.
  intros p st events.
  apply (run_keeps_count_and_selection events st).
  intros k Hk. discriminate Hk.
Defined.

Lemma editActive_sizes (f : Particle.t -> Particle.t) (st : AppState) :
  (forall p, Particle.size (f p) = Particle.size p) ->
  Particle.size <$> particlesRef (editActive f st) = Particle.size <$> particlesRef st.
Proof.
  intros Hf. unfold editActive.
  destruct (activeParticle st) as [i|]; [|reflexivity].
  destruct (particlesRef st !! i) as [p|] eqn:E; [|reflexivity]. cbn.
  rewrite list_fmap_insert, Hf. apply list_insert_id.
  now rewrite list_lookup_fmap, E.
Qed.

Lemma handle_sizes (st : AppState) (e : Event) :
  keepsSize e = true ->
  Particle.size <$> particlesRef (handle st e) = Particle.size <$> particlesRef st.
Proof.
  destruct e; cbn; intros He; try reflexivity; try discriminate He;
    try (apply editActive_sizes; reflexivity).
  - apply animate_sizes.
  - unfold handleMouseClickOverParticle. destruct (modeRef st); [reflexivity|].
    now destruct (findIndexWithCords _ _ _).
Qed.

Lemma run_sizes (events : list Event) :
  forall st, forallb keepsSize events = true ->
             Particle.size <$> particlesRef (run events st)
             = Particle.size <$> particlesRef st.
Proof.
  unfold run. induction events as [|e events IH]; intros st Hev; cbn in *.
  - reflexivity.
  - apply andb_true_iff in Hev as [He Hev].
    rewrite (IH (handle st e) Hev). now apply handle_sizes.
Qed.

(** X16. From the creation of the particles on, through any sequence of
    frames, resizes, pointer moves, clicks, mode and leak switches and edits
    of colour and position, there are [MAX_PARTICLES] particles and each
    has the radius it was created with, between [MIN_PARTICLE_SIZE] and
    [MAX_PARTICLE_SIZE]. *)
Theorem radius_is_invariant
    (canvas : Canvas.t) (random : nat -> number) (current : list Particle.t)
    (events : list Event) (st : AppState)
    (Hr : forall n, 0 <= random n /\ random n < 1)
    (Hlen : (length current <= MAX_PARTICLES)%nat)
    (Hinit : particlesRef st = createParticles (Some canvas) random current)
    (Hev : forallb keepsSize events = true) :
  length (particlesRef (run events st)) = MAX_PARTICLES
  /\ forall i p, particlesRef (run events st) !! i = Some p ->
       Particle.size p = Particle.size (newParticle canvas random i)
       /\ MIN_PARTICLE_SIZE <= Particle.size p
       /\ Particle.size p <= MAX_PARTICLE_SIZE.
Proof.
  pose proof (run_sizes events st Hev) as Hs.
  assert (Hlookup : forall i p, particlesRef (run events st) !! i = Some p ->
            Particle.size p = Particle.size (newParticle canvas random i)
            /\ (i < MAX_PARTICLES)%nat).
  { intros i p Hp.
    assert (H : (Particle.size <$> particlesRef (run events st)) !! i
                = Some (Particle.size p)) by (now rewrite list_lookup_fmap, Hp).
    rewrite Hs, Hinit, list_lookup_fmap in H.
    apply fmap_Some in H as (p0 & Hp0 & Hsz).
    apply (createParticles_lookup canvas random current i p0 Hlen) in Hp0 as [Hi ->].
    now split. }
  split.
  - rewrite <- (length_fmap Particle.size), Hs, length_fmap, Hinit.
    unfold createParticles.
    destruct (Nat.ltb_spec MAX_PARTICLES (length current)) as [Hgt|_]; [lia|].
    now rewrite length_map, length_seq.
  - intros i p Hp. destruct (Hlookup i p Hp) as [Hsz _].
    split; [exact Hsz|]. rewrite Hsz. now apply newParticle_size.
Qed.

Lemma radius_is_invariant_witness :
  let canvas := Canvas.mk 300 150 in
  let random := fun _ : nat => 0.5 in
  let st := mkAppState canvas collision (createParticles (Some canvas) random [])
              (TMouseCords.mk 0 0) false None in
  length (particlesRef (run [SetMode edit; MouseMove 20 20; ToggleLeak] st))
  = MAX_PARTICLES.
Proof.
  intros canvas random st.
  apply (radius_is_invariant canvas random [] [SetMode edit; MouseMove 20 20; ToggleLeak] st).
  - intros n. split; vm_compute; congruence.
  - cbn. lia.
  - reflexivity.
  - reflexivity.
Defined.

(** X17. The size input is not clamped: with a particle selected, the edit
    sets its radius to the value entered, whatever it is, leaves the other
    particles alone, and the following frames keep that radius. *)
Theorem edited_size_sticks
    (v : number) (rect : DOMRect.t) (st : AppState) (i : nat) (p : Particle.t)
    (Hsel : activeParticle st = Some i) (Hp : particlesRef st !! i = Some p) :
  let st1 := handle st (EditSize v) in
  let st2 := handle st1 (Frame rect) in
  particlesRef st1 !! i = Some (set_size v p)
  /\ (forall j, j <> i -> particlesRef st1 !! j = particlesRef st !! j)
  /\ Particle.size <$> particlesRef st2 !! i = Some v.
Proof.
  cbv zeta.
  assert (E1 : particlesRef (handle st (EditSize v))
               = <[ i := set_size v p ]> (particlesRef st)).
  { cbn. unfold editActive. now rewrite Hsel, Hp. }
  pose proof (lookup_lt_Some _ _ _ Hp) as Hi.
  split; [|split].
  - rewrite E1. now apply list_lookup_insert_eq.
  - intros j Hj. rewrite E1. now apply list_lookup_insert_ne.
  - rewrite <- list_lookup_fmap.
    rewrite (handle_sizes (handle st (EditSize v)) (Frame rect) eq_refl).
    rewrite list_lookup_fmap, E1, list_lookup_insert_eq by assumption.
    reflexivity.
Qed.

Lemma edited_size_sticks_witness :
  let p := Particle.mk 100 100 10 0 0 "#fff" in
  let st := mkAppState (Canvas.mk 200 200) edit [p] (TMouseCords.mk 0 0) false (Some 0%nat) in
  Particle.size <$> particlesRef (handle (handle st (EditSize 500)) (Frame (DOMRect.mk 0 0))) !! 0%nat
  = Some 500.
Proof.
  intros p st.
  apply (edited_size_sticks 500 (DOMRect.mk 0 0) st 0 p eq_refl eq_refl).
Defined.

(** ** A single wall *)

(** X18. When the test of one axis holds and the other does not, the
    velocity component along the tested axis is reversed and halved, the
    other component is halved, and only the coordinate of the tested axis
    is clamped; the reversal does not look at the direction of travel, so a
    particle that touches a wall while moving away from it is turned
    towards it. *)
Theorem single_wall_bounce (canvas : Canvas.t) (p : Particle.t) :
  let q := Particle.bounce canvas p in
  (Particle.hitsX canvas p = true -> Particle.hitsY canvas p = false ->
   Particle.dirX q = Particle.dirX p * -0.5
   /\ Particle.dirY q = Particle.dirY p * 0.5
   /\ Particle.y q = Particle.y p
   /\ Particle.x q
      = Math.min (Math.max (Particle.size p) (Particle.x p))
          (Canvas.width canvas - Particle.size p)
   /\ (Particle.dirX p < 0 -> 0 < Particle.dirX q)
   /\ (0 < Particle.dirX p -> Particle.dirX q < 0))
  /\ (Particle.hitsX canvas p = false -> Particle.hitsY canvas p = true ->
      Particle.dirY q = Particle.dirY p * -0.5
      /\ Particle.dirX q = Particle.dirX p * 0.5
      /\ Particle.x q = Particle.x p
      /\ Particle.y q
         = Math.min (Math.max (Particle.size p) (Particle.y p))
             (Canvas.height canvas - Particle.size p)
      /\ (Particle.dirY p < 0 -> 0 < Particle.dirY q)
      /\ (0 < Particle.dirY p -> Particle.dirY q < 0)).
Proof.
  cbv zeta. unfold Particle.bounce, Particle.bounceY. rewrite hitsY_bounceX.
  unfold Particle.bounceX.
  split; intros HX HY; rewrite HX, HY; cbn;
    repeat split; intros H; lra.
Qed.

Example touching_wall_while_leaving :
  let canvas := Canvas.mk 200 200 in
  let p := Particle.mk 190 100 10 (-1) 0 "#fff" in
  let p' := Particle.move (Some canvas) (TMouseCords.mk 0 0) [p] edit false 0 p in
  Particle.dirX p' == 0.5 /\ Particle.x p' == 190.5.
Proof. split; reflexivity. Qed.

(** * The velocity leak with rounding *)

(** ** On binary64 numbers *)

Section OnBinary64.

Import PrimFloat.
Local Open Scope float_scope.


(** From the collision impulse 0.005 the leak alone reaches that value in
    366386 ticks and then stays on it. *)
Example leak_from_impulse_in_binary64 :
  let leak := fun v => v - v * Binary64.PARTICLE_VELOCITY_LEAK_MODIFIER in
  N.iter 366386 leak Binary64.PARTICLE_COLLISION_VELOCITY
  = 0x0.00000000000f9p-1022
  /\ leak 0x0.00000000000f9p-1022 = 0x0.00000000000f9p-1022.
Proof. split; vm_compute; reflexivity. Qed.

End OnBinary64.

(** ** With a rounding function *)

Section RoundedLeak.

Variables (rnd : Q -> Q) (eps tmin tmax : Q).
Hypothesis Hrnd : rounding rnd eps tmin tmax.

Local Abbreviation leak1 := (leakRounded rnd).
Local Abbreviation LEAK := (rnd PARTICLE_VELOCITY_LEAK_MODIFIER).

















(** ** Several ticks *)









End RoundedLeak.

(** ** Two roundings *)

Lemma rounding_exact (tmax : Q) :
  PARTICLE_VELOCITY_LEAK_MODIFIER <= tmax -> rounding (fun a => a) 0 0 tmax.
Proof.
  intros Hmax. unfold rounding, PARTICLE_VELOCITY_LEAK_MODIFIER in *.
  repeat split; try (intros; lra).
  intros a _ _.
  assert (E : a - a == 0) by ring. rewrite E. change (Qabs 0) with 0. lra.
Qed.











(** Below the accurate range the truncation stalls as binary64 does: one
    grid step is a fixed point of the leak. *)
Example leak_stalls_on_the_grid :
  leakRounded truncate30 (1 # 1073741824) == (1 # 1073741824).
Proof. reflexivity. Qed.

(** ** The amended property *)




